(** * The node orchestrator of cpp-ethereum (libethereum/Client.cpp)

  A shallow embedding of [Client.cpp]: the version checker, the basic gas
  pricer, the mining aggregates, [call], the filter bookkeeping and the
  work loop [doWork], followed by the properties established about them.

  Conventions.
  - C++ [unsigned], [uint64_t] and [u256] values are integers of [Z] kept in
    range by an explicit reduction ([u32], [u64], [u256]).
  - A C++ exception is the [None] of an [option]; [try { .. } catch (...)]
    is [try_catch].
  - Undefined behaviour (division by zero, indexing past the end of a
    vector or array) is [None] as well, in functions that have no handler.
  - A difference of two [chrono] time points is a signed 64-bit count of
    ticks ([s64]).
  - Collaborators whose code lives outside [Client.cpp] (chain store,
    state, transaction queue, RLP codec, file system, executive, filters)
    are interfaces: type classes whose methods carry the names of the C++
    members that [Client.cpp] calls. *)

From Stdlib Require Import ZArith List Lia Bool Ascii.
From stdpp Require Import base numbers option list sorting gmap strings fin_maps.

Local Open Scope Z_scope.

(** ** Machine integers *)

Module Word.

Definition u32 (x : Z) : Z := x mod 2 ^ 32.
Definition u64 (x : Z) : Z := x mod 2 ^ 64.
Definition u256 (x : Z) : Z := x mod 2 ^ 256.

(** A signed 64-bit count, as the tick count of a [chrono] duration: a
    difference that does not fit wraps around. *)
Definition s64 (x : Z) : Z := (x + 2 ^ 63) mod 2 ^ 64 - 2 ^ 63.

(** Unsigned division: a zero divisor traps. *)
Definition udiv (a b : Z) : option Z :=
  if decide (b = 0) then None else Some (a / b).

Lemma u64_small x : 0 ≤ x < 2 ^ 64 → u64 x = x.
Proof. intros. unfold u64. by apply Z.mod_small. Qed.

Lemma s64_small x : - 2 ^ 63 ≤ x < 2 ^ 63 → s64 x = x.
Proof. intros. unfold s64. rewrite Z.mod_small by lia. lia. Qed.

Lemma u32_small x : 0 ≤ x < 2 ^ 32 → u32 x = x.
Proof. intros. unfold u32. by apply Z.mod_small. Qed.

Lemma u256_small x : 0 ≤ x < 2 ^ 256 → u256 x = x.
Proof. intros. unfold u256. by apply Z.mod_small. Qed.

Lemma udiv_Some a b : b ≠ 0 → udiv a b = Some (a / b).
Proof. intros. unfold udiv. by case_decide. Qed.

Lemma udiv_None a b : udiv a b = None ↔ b = 0.
Proof. unfold udiv. case_decide; naive_solver. Qed.

End Word.
Export Word.

(** ** Plain data *)

(** 32-byte hashes, 20-byte addresses and 256-bit quantities. *)
Abbreviation h256 := Z (only parsing).
Abbreviation Address := Z (only parsing).
Abbreviation bytes := (list Byte.byte) (only parsing).

(** [try { body } catch (...) { }] around a result initialised to [dflt]. *)
Definition try_catch {A} (dflt : A) (body : option A) : A :=
match body with
| Some r => r
| None => dflt
end.

(** ** Mining progress (MineProgress, LocalMiner) *)

Module Mining.

(** The two counters of [MineProgress] that [hashrate] reads. *)
Record MineProgress := mkMineProgress {
  hashes : Z;   (* total number of hashes computed *)
  ms : Z        (* total number of milliseconds of mining thus far *)
}.

(** A local miner as the client sees it: [isComplete()], [blockData()],
    [miningProgress()] and the flag raised by [noteStateChange()]. *)
Record LocalMiner := mkLocalMiner {
  lm_index : Z;
  lm_progress : MineProgress;
  lm_complete : bool;
  lm_blockData : bytes;
  lm_stateChanged : bool
}.

(** The remote miner: the same [Miner] interface, no progress counters. *)
Record RemoteMiner := mkRemoteMiner {
  rm_complete : bool;
  rm_blockData : bytes
}.

Definition miningProgress (m : LocalMiner) : MineProgress := lm_progress m.

(** Modelled from the spec: [LocalMiner::noteStateChange] is not part of the
    sources; "[noteStateChange] forces any state back to idle" and makes the
    miner "abandon its current work package": a miner that was complete is
    complete no longer. *)
Definition noteStateChange (m : LocalMiner) : LocalMiner :=
  {| lm_index := lm_index m; lm_progress := lm_progress m;
     lm_complete := false; lm_blockData := lm_blockData m;
     lm_stateChanged := true |}.

(** Modelled from the spec: [LocalMiner::setup] is not part of the sources;
    [setMiningThreads] "allocates n fresh miners, associates each with its
    index": a fresh miner has done no work, both counters are zero. *)
Definition setup (i : Z) : LocalMiner :=
  {| lm_index := i;
     lm_progress := {| hashes := 0; ms := 0 |};
     lm_complete := false; lm_blockData := [];
     lm_stateChanged := false |}.

(** The loop of [Client::hashrate]:
    [for (m: m_localMiners) ret += m.miningProgress().hashes / m.miningProgress().ms;]
    with [ret] a [uint64_t]; the two calls of [miningProgress()] read the
    same counters. *)
Fixpoint hashrate_loop (ret : Z) (miners : list LocalMiner) : option Z :=
  match miners with
  | [] => Some ret
  | m :: rest =>
      q ← udiv (hashes (miningProgress m)) (ms (miningProgress m));
      hashrate_loop (u64 (ret + q)) rest
  end.

Definition hashrate_of (miners : list LocalMiner) : option Z :=
  ret ← hashrate_loop 0 miners; Some (ret / 1000).

(** The sum the specification writes: each miner's quotient, then the sum. *)
Definition rate_sum (miners : list LocalMiner) : Z :=
  foldr (λ m acc, hashes (miningProgress m) / ms (miningProgress m) + acc) 0 miners.

(** [m_localMiners.resize(t); unsigned i = 0; for (m: ..) m.setup(this, i++);] *)
Definition fresh_miners (t : nat) : list LocalMiner :=
  map (λ i, setup (Z.of_nat i)) (seq 0 t).

End Mining.
Export Mining.

(** ** The version checker (VersionChecker) *)

Module Version.

(** [enum class WithExisting { Trust = 0, Verify, Kill }] *)
Inductive WithExisting := Trust | Verify | Kill.

#[global] Instance WithExisting_eq_dec : EqDecision WithExisting.
Proof. solve_decision. Defined.

Definition WithExisting_rank (a : WithExisting) : Z :=
  match a with Trust => 0 | Verify => 1 | Kill => 2 end.

(** [max(m_vc.action(), _forceAction)] of the constructors of [Client]. *)
Definition WithExisting_max (a b : WithExisting) : WithExisting :=
  if WithExisting_rank a <? WithExisting_rank b then b else a.

(** The compiled-in constants ([eth::c_protocolVersion],
    [eth::c_minorProtocolVersion], [c_databaseVersion]) and
    [Defaults::dbPath()]; their values are declared outside [Client.cpp]. *)
Class Constants := {
  c_protocolVersion : Z;
  c_minorProtocolVersion : Z;
  c_databaseVersion : Z;
  Defaults_dbPath : string
}.

(** The part of the RLP codec that the checker uses. *)
Class RLPCodec := {
  RLP : Type;
  (** [RLP status(statusBytes)]: a view of the bytes. *)
  rlp_of_bytes : bytes → RLP;
  (** [status[i]] *)
  rlp_at : RLP → nat → RLP;
  (** [(unsigned)item]; [None] when the conversion throws. *)
  rlp_toUnsigned : RLP → option Z;
  (** [rlpList(a, b, c)] *)
  rlpList3 : Z → Z → Z → bytes
}.

(** Whether a file name has a directory part. *)
Fixpoint has_slash (s : string) : bool :=
  match s with
  | EmptyString => false
  | String c rest => if Ascii.eqb c "/"%char then true else has_slash rest
  end.

(** File access: [contents], [writeFile] (libdevcore) and
    [boost::filesystem::create_directory], which throws when it cannot make
    the directory and returns when the directory is there, old or new.
    [writeFile] fails without a sign where the directory is missing, so the
    only thing asked of it is that a file written directly inside a
    directory for which [create_directory] has returned is read back. *)
Class FileSystem := {
  FS : Type;
  contents : FS → string → bytes;
  writeFile : FS → string → bytes → FS;
  create_directory : FS → string → option FS;
  contents_writeFile : ∀ fs d fs' name b,
    has_slash name = false →
    create_directory fs d = Some fs' →
    contents (writeFile fs' (d +:+ String "/"%char name) b)
      (d +:+ String "/"%char name) = b
}.

Record VersionChecker := mkVersionChecker {
  m_path : string;
  m_action : WithExisting
}.

Section Checker.
Context `{Constants} `{RLPCodec} `{FileSystem}.

Definition status_path (path : string) : string := path +:+ "/status".

(** [VersionChecker::VersionChecker(string const& _dbPath)]. The bytes are
    read and wrapped before the [try]; the three conversions are inside. *)
Definition VersionChecker_new (fs : FS) (_dbPath : string) : VersionChecker :=
  let path := if (0 <? String.length _dbPath)%nat then _dbPath else Defaults_dbPath in
  let statusBytes := contents fs (status_path path) in
  let status := rlp_of_bytes statusBytes in
  {| m_path := path;
     m_action :=
       try_catch Kill (
         protocolVersion ← rlp_toUnsigned (rlp_at status 0);
         minorProtocolVersion ← rlp_toUnsigned (rlp_at status 1);
         databaseVersion ← rlp_toUnsigned (rlp_at status 2);
         Some (if negb (protocolVersion =? c_protocolVersion)
                  || negb (databaseVersion =? c_databaseVersion)
               then Kill
               else if negb (minorProtocolVersion =? c_minorProtocolVersion)
               then Verify
               else Trust)) |}.

(** [void VersionChecker::setOk()]: the failure of [create_directory] is
    logged and the write is attempted all the same. *)
Definition setOk (vc : VersionChecker) (fs : FS) : FS :=
  if decide (m_action vc ≠ Trust) then
    let fs1 := try_catch fs (create_directory fs (m_path vc)) in
    writeFile fs1 (status_path (m_path vc))
      (rlpList3 c_protocolVersion c_minorProtocolVersion c_databaseVersion)
  else fs.

(** The record [P, m, D] as the specification reads it from the status file:
    the three fields, when all three convert. *)
Definition status_record (fs : FS) (path : string) : option (Z * Z * Z) :=
  let status := rlp_of_bytes (contents fs (status_path path)) in
  match rlp_toUnsigned (rlp_at status 0),
        rlp_toUnsigned (rlp_at status 1),
        rlp_toUnsigned (rlp_at status 2) with
  | Some P, Some m, Some D => Some (P, m, D)
  | _, _, _ => None
  end.

End Checker.

End Version.

(** ** Data of the chain and of the filters *)

Module Data.

Record BlockInfo := mkBlockInfo {
  bi_hash : h256;            (* hash() *)
  parentHash : h256;
  gasLimit : Z;
  transactionsRoot : h256;
  bi_number : Z;             (* number *)
  logBloom : Z
}.

Record LogEntry := mkLogEntry {
  le_address : Address;
  le_topics : list h256;
  le_data : bytes
}.

Record TransactionReceipt := mkTransactionReceipt {
  gasUsed : Z;
  tr_log : list LogEntry
}.

(** What [Client.cpp] asks of a decoded [Transaction]. *)
Record Transaction := mkTransaction {
  gasPrice : Z;
  tx_sha3 : h256             (* sha3() *)
}.

(** [LocalisedLogEntry(log, number, sha3)] *)
Record LocalisedLogEntry := mkLocalisedLogEntry {
  lle_log : LogEntry;
  lle_number : Z;
  lle_sha3 : h256
}.

Inductive RelativeBlock := Latest | Pending.

(** The two pseudo-filter ids ([u256(0)] and [u256(1)] in the headers). *)
Definition PendingChangedFilter : h256 := 0.
Definition ChainChangedFilter : h256 := 1.

(** [std::chrono::system_clock] time points, in clock ticks of a
    nanosecond; [time_point::max()] is the largest 64-bit tick count. *)
Definition time_point_max : Z := 2 ^ 63 - 1.
Definition seconds (n : Z) : Z := n * 1000000000.

(** The gas pricers: [TrivialGasPricer] has no state, [BasicGasPricer] keeps
    [std::array<u256, 9> m_octiles] and [m_gasPerBlock]. *)
Record BasicGasPricer := mkBasicGasPricer {
  m_octiles : list Z;
  m_gasPerBlock : Z
}.

Inductive GasPricer := TrivialGasPricer | BasicGasPricerOf (gp : BasicGasPricer).

(** The host, held through a weak pointer: the two notifications that the
    work loop sends. *)
Record EthereumHost := mkEthereumHost {
  host_newTransactions : bool;
  host_newBlocks : bool
}.

Definition noteNewTransactions (h : EthereumHost) : EthereumHost :=
  {| host_newTransactions := true; host_newBlocks := host_newBlocks h |}.

Definition noteNewBlocks (h : EthereumHost) : EthereumHost :=
  {| host_newTransactions := host_newTransactions h; host_newBlocks := true |}.

End Data.
Export Data.

(** ** Collaborator interfaces *)

Module Collab.

(** ChainStore: the [BlockChain] members used by [Client.cpp]. Operations
    that change the chain return the new chain next to their result. *)
Class ChainStore := {
  BlockChain : Type;
  BlockQueue : Type;
  OverlayDB : Type;
  EmptyTrie : h256;
  currentHash : BlockChain → h256;
  bc_number : BlockChain → Z;
  info : BlockChain → h256 → BlockInfo;
  receipts : BlockChain → h256 → list TransactionReceipt;
  (** [transactions(h)]: the raw transactions of a block, which are also the
      items [RLP(block(h))[1][i].data()] *)
  transactions : BlockChain → h256 → list bytes;
  transactionHashes : BlockChain → h256 → list h256;
  (** [Transaction(data, CheckTransaction::None)] *)
  Transaction_decode : bytes → Transaction;
  (** [Client::transaction(blockHash, i)] *)
  transaction : BlockChain → h256 → nat → Transaction;
  (** [attemptImport(block, db) → (canonical blocks, head)] *)
  attemptImport : BlockChain → bytes → OverlayDB → (list h256 * h256) * BlockChain * OverlayDB;
  (** [sync(bq, db, max) → (fresh, dead, stillGotWork)] *)
  bc_sync : BlockChain → BlockQueue → OverlayDB → Z →
            (list h256 * list h256 * bool) * BlockChain * BlockQueue * OverlayDB;
  garbageCollect : BlockChain → BlockChain
}.

(** TxPool: [TransactionQueue::import], [drop], [clear]. *)
Class TxPool := {
  TransactionQueue : Type;
  tq_import : TransactionQueue → bytes → TransactionQueue;
  tq_drop : TransactionQueue → h256 → TransactionQueue;
  tq_clear : TransactionQueue → TransactionQueue
}.

(** State: the members of [State] used by [Client.cpp]. *)
Class StateModel `{ChainStore} `{TxPool} := {
  State : Type;
  (** [bool State::sync(BlockChain const&)] *)
  st_sync : State → BlockChain → bool * State;
  (** [TransactionReceipts State::sync(bc, tq, gp)] *)
  st_sync_queue : State → BlockChain → TransactionQueue → GasPricer →
                  list TransactionReceipt * State * TransactionQueue;
  pending : State → list Transaction;
  address : State → Address;
  (** [addBalance(addr, amount)]; [None] when it throws *)
  addBalance : State → Address → Z → option State;
  rootHash : State → h256
}.

(** Log filters: [envelops] and the two [matches]. *)
Class LogFilterModel := {
  LogFilter : Type;
  SpecialLogEntry : LogEntry;
  envelops : LogFilter → RelativeBlock → Z → bool;
  matches_bloom : LogFilter → Z → bool;
  matches : LogFilter → TransactionReceipt → list LogEntry
}.

(** Executive: construction, [call], [go], [executionResult]; each may throw.
    The executive works on the [State] it was built on. *)
Class ExecutiveModel `{StateModel} := {
  Executive : Type;
  ExecutionResult : Type;
  (** a default-constructed [ExecutionResult] *)
  ExecutionResult_empty : ExecutionResult;
  Executive_new : State → option Executive;
  (** [e.call(receive, code, sender, value, gasPrice, data, gas, origin)] *)
  exec_call : Executive → Address → Address → Address → Z → Z → bytes → Z → Address →
              option (bool * Executive);
  exec_go : Executive → option Executive;
  executionResult : Executive → option ExecutionResult
}.

End Collab.
Export Collab.

(** ** The basic gas pricer (BasicGasPricer::update) *)

Module GasPrice.

Section Update.
Context `{ChainStore}.

(** [dist[price] += gu] on a [map<u256, unsigned>], kept as an association
    list in ascending order of price, the order in which the map is walked. *)
Fixpoint dist_add (price gu : Z) (dist : list (Z * Z)) : list (Z * Z) :=
  match dist with
  | [] => [(price, u32 gu)]
  | (p, w) :: rest =>
      if price <? p then (price, u32 gu) :: dist
      else if price =? p then (p, u32 (w + gu)) :: rest
      else (p, w) :: dist_add price gu rest
  end.

(** The loop over the transactions of one block,
    [for (unsigned i = 0; i < r[1].size(); ++i)]; reading [brs.receipts[i]]
    past the end is undefined. *)
Fixpoint update_block (txs : list bytes) (i : nat) (brs : list TransactionReceipt)
    (acc : list (Z * Z) * Z) : option (list (Z * Z) * Z) :=
  match txs with
  | [] => Some acc
  | t :: rest =>
      r ← brs !! i;
      let gu := gasUsed r in
      update_block rest (S i) brs
        (dist_add (gasPrice (Transaction_decode t)) (u32 gu) acc.1, u32 (acc.2 + u32 gu))
  end.

(** [while (c < 1000 && p)]: [left] is [1000 - c]. *)
Fixpoint update_walk (left : nat) (bc : BlockChain) (p : h256)
    (acc : list (Z * Z) * Z) : option (list (Z * Z) * Z) :=
  match left with
  | O => Some acc
  | S left' =>
      if p =? 0 then Some acc
      else
        let bi := info bc p in
        acc' ← (if negb (transactionsRoot bi =? EmptyTrie)
                then update_block (transactions bc p) 0 (receipts bc (bi_hash bi)) acc
                else Some acc);
        update_walk left' bc (parentHash bi) acc'
  end.

(** [for (; t <= total * q / 8 && t + i.second > total * q / 8; ++q)
       m_octiles[q] = i.first;]
    where [q = 9 - room]; [m_octiles] has nine slots, so writing slot 9 is
    undefined. *)
Fixpoint octile_fill (room : nat) (t total price w : Z) (oct : list Z) :
    option (nat * list Z) :=
  let q := 9 - Z.of_nat room in
  let bound := u32 (total * q) / 8 in
  if (t <=? bound) && (bound <? u32 (t + w)) then
    match room with
    | O => None
    | S room' => octile_fill room' t total price w (<[Z.to_nat q := price]> oct)
    end
  else Some (room, oct).

(** [for (auto const& i: dist) { <inner loop>; if (q > 7) break; }]; the
    source never assigns [t] after its initialisation. *)
Fixpoint octile_scan (dist : list (Z * Z)) (room : nat) (t total : Z) (oct : list Z) :
    option (list Z) :=
  match dist with
  | [] => Some oct
  | (price, w) :: rest =>
      '(room', oct') ← octile_fill room t total price w oct;
      if 7 <? 9 - Z.of_nat room' then Some oct'
      else octile_scan rest room' t total oct'
  end.

(** [void BasicGasPricer::update(BlockChain const& _bc)] *)
Definition update (bc : BlockChain) (gp : BasicGasPricer) : option BasicGasPricer :=
  let p := currentHash bc in
  let gasPerBlock := gasLimit (info bc p) in
  '(dist, total) ← update_walk 1000 bc p ([], 0);
  if 0 <? total then
    let t := 0 in
    lo ← head dist;
    oct ← octile_scan dist 8 t total (<[0%nat := lo.1]> (m_octiles gp));
    hi ← last dist;
    Some {| m_octiles := <[8%nat := hi.1]> oct; m_gasPerBlock := gasPerBlock |}
  else Some {| m_octiles := m_octiles gp; m_gasPerBlock := gasPerBlock |}.

(** The octiles as the specification defines them, from the distribution
    [dist] (ascending prices with their gas-used weight): the smallest price
    at which the running sum of the weights reaches [k * total / 8]. *)
Fixpoint price_at (dist : list (Z * Z)) (cum bound : Z) : option Z :=
  match dist with
  | [] => None
  | (price, w) :: rest =>
      if bound <=? cum + w then Some price else price_at rest (cum + w) bound
  end.

Definition octile_spec (dist : list (Z * Z)) (total : Z) (k : Z) : option Z :=
  price_at dist 0 (total * k / 8).

(** [octile[0] ≤ … ≤ octile[8]] *)
Fixpoint ascending (l : list Z) : bool :=
  match l with
  | a :: (b :: _) as rest => (a <=? b) && ascending rest
  | _ => true
  end.

End Update.

End GasPrice.

(** ** The client *)

Module ClientModel.

Section Client.
Context `{ChainStore} `{TxPool} `{!StateModel} `{LogFilterModel} `{!ExecutiveModel}.

Record InstalledFilter := mkInstalledFilter {
  filter : LogFilter;
  refCount : Z;
  changes : list LocalisedLogEntry
}.

Record ClientWatch := mkClientWatch {
  id : h256;
  w_changes : list LocalisedLogEntry;       (* changes *)
  lastPoll : Z
}.

Record Client := mkClient {
  m_bc : BlockChain;
  m_tq : TransactionQueue;
  m_bq : BlockQueue;
  m_gp : GasPricer;
  m_stateDB : OverlayDB;
  m_preMine : State;
  m_postMine : State;
  m_host : option EthereumHost;             (* std::weak_ptr<EthereumHost> *)
  m_localMiners : list LocalMiner;
  m_remoteMiner : RemoteMiner;
  m_filters : gmap Z InstalledFilter;       (* std::map<h256, InstalledFilter> *)
  m_watches : gmap Z ClientWatch;           (* std::map<unsigned, ClientWatch> *)
  m_lastGarbageCollection : Z
}.

Definition set_m_bc (v : BlockChain) (c : Client) : Client :=
  mkClient v (m_tq c) (m_bq c) (m_gp c) (m_stateDB c) (m_preMine c) (m_postMine c)
    (m_host c) (m_localMiners c) (m_remoteMiner c) (m_filters c) (m_watches c)
    (m_lastGarbageCollection c).

Definition set_m_tq (v : TransactionQueue) (c : Client) : Client :=
  mkClient (m_bc c) v (m_bq c) (m_gp c) (m_stateDB c) (m_preMine c) (m_postMine c)
    (m_host c) (m_localMiners c) (m_remoteMiner c) (m_filters c) (m_watches c)
    (m_lastGarbageCollection c).

Definition set_m_bq (v : BlockQueue) (c : Client) : Client :=
  mkClient (m_bc c) (m_tq c) v (m_gp c) (m_stateDB c) (m_preMine c) (m_postMine c)
    (m_host c) (m_localMiners c) (m_remoteMiner c) (m_filters c) (m_watches c)
    (m_lastGarbageCollection c).

Definition set_m_stateDB (v : OverlayDB) (c : Client) : Client :=
  mkClient (m_bc c) (m_tq c) (m_bq c) (m_gp c) v (m_preMine c) (m_postMine c)
    (m_host c) (m_localMiners c) (m_remoteMiner c) (m_filters c) (m_watches c)
    (m_lastGarbageCollection c).

Definition set_m_preMine (v : State) (c : Client) : Client :=
  mkClient (m_bc c) (m_tq c) (m_bq c) (m_gp c) (m_stateDB c) v (m_postMine c)
    (m_host c) (m_localMiners c) (m_remoteMiner c) (m_filters c) (m_watches c)
    (m_lastGarbageCollection c).

Definition set_m_postMine (v : State) (c : Client) : Client :=
  mkClient (m_bc c) (m_tq c) (m_bq c) (m_gp c) (m_stateDB c) (m_preMine c) v
    (m_host c) (m_localMiners c) (m_remoteMiner c) (m_filters c) (m_watches c)
    (m_lastGarbageCollection c).

Definition set_m_host (v : option EthereumHost) (c : Client) : Client :=
  mkClient (m_bc c) (m_tq c) (m_bq c) (m_gp c) (m_stateDB c) (m_preMine c) (m_postMine c)
    v (m_localMiners c) (m_remoteMiner c) (m_filters c) (m_watches c)
    (m_lastGarbageCollection c).

Definition set_m_localMiners (v : list LocalMiner) (c : Client) : Client :=
  mkClient (m_bc c) (m_tq c) (m_bq c) (m_gp c) (m_stateDB c) (m_preMine c) (m_postMine c)
    (m_host c) v (m_remoteMiner c) (m_filters c) (m_watches c)
    (m_lastGarbageCollection c).

Definition set_m_filters (v : gmap Z InstalledFilter) (c : Client) : Client :=
  mkClient (m_bc c) (m_tq c) (m_bq c) (m_gp c) (m_stateDB c) (m_preMine c) (m_postMine c)
    (m_host c) (m_localMiners c) (m_remoteMiner c) v (m_watches c)
    (m_lastGarbageCollection c).

Definition set_m_watches (v : gmap Z ClientWatch) (c : Client) : Client :=
  mkClient (m_bc c) (m_tq c) (m_bq c) (m_gp c) (m_stateDB c) (m_preMine c) (m_postMine c)
    (m_host c) (m_localMiners c) (m_remoteMiner c) (m_filters c) v
    (m_lastGarbageCollection c).

Definition set_m_lastGarbageCollection (v : Z) (c : Client) : Client :=
  mkClient (m_bc c) (m_tq c) (m_bq c) (m_gp c) (m_stateDB c) (m_preMine c) (m_postMine c)
    (m_host c) (m_localMiners c) (m_remoteMiner c) (m_filters c) (m_watches c) v.

(** [uint64_t Client::hashrate() const] *)
Definition hashrate (c : Client) : option Z := hashrate_of (m_localMiners c).

(** [for (auto& m: m_localMiners) m.noteStateChange();] *)
Definition noteStateChange_all (c : Client) : Client :=
  set_m_localMiners (map noteStateChange (m_localMiners c)) c.

(** *** Filters and watches *)

Definition push_changes (f : InstalledFilter) (es : list LocalisedLogEntry) : InstalledFilter :=
  {| filter := filter f; refCount := refCount f; changes := changes f ++ es |}.

Definition clear_changes (f : InstalledFilter) : InstalledFilter :=
  {| filter := filter f; refCount := refCount f; changes := [] |}.

Definition watch_push (w : ClientWatch) (es : list LocalisedLogEntry) : ClientWatch :=
  {| id := id w; w_changes := w_changes w ++ es; lastPoll := lastPoll w |}.

(** [void Client::noteChanged(h256Set const& _filters)] *)
Definition noteChanged (_filters : gset Z) (c : Client) : Client :=
  let watches :=
    (λ w : ClientWatch,
       if decide (id w ∈ _filters) then
         match m_filters c !! id w with
         | Some f => watch_push w (changes f)
         | None => watch_push w [mkLocalisedLogEntry SpecialLogEntry 0 0]
         end
       else w) <$> m_watches c in
  set_m_filters (clear_changes <$> m_filters c) (set_m_watches watches c).

(** The entries that one filter takes from one pending receipt: none unless
    the filter envelops the pending block. *)
Definition pending_entries (bc : BlockChain) (f : LogFilter)
    (_receipt : TransactionReceipt) (_transactionHash : h256) : list LocalisedLogEntry :=
  if envelops f Pending (u32 (bc_number bc + 1)) then
    (λ l, mkLocalisedLogEntry l (u32 (bc_number bc + 1)) _transactionHash)
      <$> matches f _receipt
  else [].

(** [void Client::appendFromNewPending(TransactionReceipt const& _receipt,
      h256Set& io_changed, h256 _transactionHash)];
    [push_back] of an empty list of matches changes nothing, and the filter
    id is inserted only when there is a match. *)
Definition appendFromNewPending (_receipt : TransactionReceipt)
    (_transactionHash : h256) (st : Client * gset Z) : Client * gset Z :=
  let '(c, io_changed) := st in
  let hit (f : InstalledFilter) : bool :=
    envelops (filter f) Pending (u32 (bc_number (m_bc c) + 1))
    && (0 <? length (matches (filter f) _receipt))%nat in
  let filters :=
    (λ f : InstalledFilter,
       if envelops (filter f) Pending (u32 (bc_number (m_bc c) + 1)) then
         let m := matches (filter f) _receipt in
         if (0 <? length m)%nat then
           push_changes f
             ((λ l, mkLocalisedLogEntry l (u32 (bc_number (m_bc c) + 1)) _transactionHash) <$> m)
         else f
       else f) <$> m_filters c in
  (set_m_filters filters c,
   io_changed ∪ dom (base.filter (λ kv : Z * InstalledFilter, hit kv.2 = true) (m_filters c))).

(** The inner loop of [appendFromNewBlock] for one filter: the receipts of
    the block, by index [j]. *)
Fixpoint block_entries (bc : BlockChain) (d : BlockInfo) (f : LogFilter)
    (j : nat) (br : list TransactionReceipt) : list LocalisedLogEntry :=
  match br with
  | [] => []
  | tr :: rest =>
      ((λ l, mkLocalisedLogEntry l (u32 (bi_number d))
               (tx_sha3 (transaction bc (bi_hash d) j))) <$> matches f tr)
      ++ block_entries bc d f (S j) rest
  end.

(** [void Client::appendFromNewBlock(h256 const& _block, h256Set& io_changed)] *)
Definition appendFromNewBlock (_block : h256) (st : Client * gset Z) : Client * gset Z :=
  let '(c, io_changed) := st in
  let d := info (m_bc c) _block in
  let br := receipts (m_bc c) _block in
  let applies (f : InstalledFilter) : bool :=
    envelops (filter f) Latest (bi_number d) && matches_bloom (filter f) (logBloom d) in
  let filters :=
    (λ f : InstalledFilter,
       if applies f then push_changes f (block_entries (m_bc c) d (filter f) 0 br) else f)
      <$> m_filters c in
  (set_m_filters filters c,
   io_changed ∪ dom (base.filter (λ kv : Z * InstalledFilter,
                        applies kv.2 = true
                        ∧ block_entries (m_bc c) d (filter kv.2) 0 br ≠ [])
                       (m_filters c))).

(** *** call *)

(** The part of [Client::call] that runs on the local [temp]:
    [Executive e(temp, LastHashes(), 0);
     if (!e.call(_dest, _dest, _from, _value, _gasPrice, &_data, _gas, _from)) e.go();
     ret = e.executionResult();] *)
Definition call_simulation (temp : State) (_dest : Address) (_data : bytes)
    (_gas _value _gasPrice : Z) (_from : Address) : option ExecutionResult :=
  e ← Executive_new temp;
  '(finished, e1) ← exec_call e _dest _dest _from _value _gasPrice _data _gas _from;
  e2 ← (if negb finished then exec_go e1 else Some e1);
  executionResult e2.

(** [ExecutionResult Client::call(Address _dest, bytes const& _data, u256 _gas,
      u256 _value, u256 _gasPrice, Address const& _from)].
    The client is returned next to the result: [call] is not a [const]
    member. [temp = m_postMine] copies the state; the sum and the product
    are [u256] operations. *)
Definition call (c : Client) (_dest : Address) (_data : bytes)
    (_gas _value _gasPrice : Z) (_from : Address) : ExecutionResult * Client :=
  let ret := ExecutionResult_empty in
  (try_catch ret (
     let temp := m_postMine c in
     temp' ← addBalance temp _from (u256 (_value + u256 (_gasPrice * _gas)));
     call_simulation temp' _dest _data _gas _value _gasPrice _from),
   c).

(** *** The work loop *)

(** The lambda [maintainMiner] of [doWork], on the two members of [Miner]
    that it reads. The branch [if (false && lm && !m_verifyOwnBlocks)] is
    never taken. *)
Definition maintainMiner (isComplete : bool) (blockData : bytes)
    (st : Client * gset Z) : Client * gset Z :=
  if isComplete then
    let '(c, changeds) := st in
    let '((hs, ch), bc', db') := attemptImport (m_bc c) blockData (m_stateDB c) in
    let c1 := set_m_stateDB db' (set_m_bc bc' c) in
    let st2 :=
      if (0 <? length hs)%nat then
        let st1 := foldl (λ acc h, if decide (h ≠ ch) then appendFromNewBlock h acc else acc)
                     (c1, changeds) hs in
        (st1.1, st1.2 ∪ {[ChainChangedFilter]})
      else (c1, changeds) in
    (noteStateChange_all st2.1, st2.2)
  else st.

(** [maintainMiner(m)] for the local miner at position [i], as the earlier
    iterations have left it: [isComplete()] is tested when its turn comes. *)
Definition maintainLocalMiner (st : Client * gset Z) (i : nat) : Client * gset Z :=
  match m_localMiners st.1 !! i with
  | Some m => maintainMiner (lm_complete m) (lm_blockData m) st
  | None => st
  end.

(** Both miner loops: [for (auto& m: m_localMiners) maintainMiner(m);] then
    [maintainMiner(m_remoteMiner)]. The number of local miners does not
    change during the loop. *)
Definition doWork_miners (c : Client) : Client * gset Z :=
  let st := foldl maintainLocalMiner (c, ∅) (seq 0 (length (m_localMiners c))) in
  maintainMiner (rm_complete (m_remoteMiner st.1)) (rm_blockData (m_remoteMiner st.1)) st.

(** [for (h: dead) for (t: m_bc.transactions(h)) m_tq.import(t);] *)
Definition resubmit_dead (bc : BlockChain) (dead : list h256)
    (tq : TransactionQueue) : TransactionQueue :=
  foldl (λ q h, foldl tq_import q (transactions bc h)) tq dead.

(** [for (h: fresh) for (th: m_bc.transactionHashes(h)) m_tq.drop(th);] *)
Definition drop_fresh (bc : BlockChain) (fresh : list h256)
    (tq : TransactionQueue) : TransactionQueue :=
  foldl (λ q h, foldl tq_drop q (transactionHashes bc h)) tq fresh.

(** From [OverlayDB db = m_stateDB] to [if (fresh.size()) m_stateDB = db]. *)
Definition doWork_chain (c : Client) (changeds : gset Z) : Client * gset Z * bool :=
  let db := m_stateDB c in
  let '((fresh, dead, sgw), bc', bq', db') := bc_sync (m_bc c) (m_bq c) db 100 in
  let c1 := set_m_bq bq' (set_m_bc bc' c) in
  let c2 := set_m_tq (drop_fresh (m_bc c1) fresh (resubmit_dead (m_bc c1) dead (m_tq c1))) c1 in
  let st :=
    if (0 <? length fresh)%nat then
      let st1 := foldl (λ acc i, appendFromNewBlock i acc) (c2, changeds) fresh in
      (st1.1, st1.2 ∪ {[ChainChangedFilter]})
    else (c2, changeds) in
  let c3 := if (0 <? length fresh)%nat then set_m_stateDB db' st.1 else st.1 in
  (c3, st.2, sgw).

(** [if (m_preMine.sync(m_bc) || m_postMine.address() != m_preMine.address())] *)
Definition doWork_preMine (c : Client) (changeds : gset Z) : Client * gset Z * bool :=
  let '(moved, pre') := st_sync (m_preMine c) (m_bc c) in
  let c1 := set_m_preMine pre' c in
  if moved || negb (address (m_postMine c1) =? address (m_preMine c1)) then
    (set_m_postMine (m_preMine c1) c1, changeds ∪ {[PendingChangedFilter]}, true)
  else (c1, changeds, false).

(** [for (size_t i = 0; i < newPendingReceipts.size(); i++)
       appendFromNewPending(newPendingReceipts[i], changeds, m_postMine.pending()[i].sha3());]
    reading [pending()[i]] past the end is undefined. *)
Fixpoint notify_pending (i : nat) (newPendingReceipts : list TransactionReceipt)
    (pend : list Transaction) (st : Client * gset Z) : option (Client * gset Z) :=
  match newPendingReceipts with
  | [] => Some st
  | r :: rest =>
      t ← pend !! i;
      notify_pending (S i) rest pend (appendFromNewPending r (tx_sha3 t) st)
  end.

(** From [m_postMine.sync(m_bc, m_tq, *m_gp)] to the end of the locked block. *)
Definition doWork_pending (c : Client) (changeds : gset Z) (resyncStateNeeded : bool) :
    option (Client * gset Z * bool) :=
  let '(newPendingReceipts, post', tq') :=
    st_sync_queue (m_postMine c) (m_bc c) (m_tq c) (m_gp c) in
  let c1 := set_m_tq tq' (set_m_postMine post' c) in
  if (0 <? length newPendingReceipts)%nat then
    st ← notify_pending 0 newPendingReceipts (pending (m_postMine c1)) (c1, changeds);
    Some (set_m_host (noteNewTransactions <$> m_host st.1) st.1,
          st.2 ∪ {[PendingChangedFilter]}, true)
  else Some (c1, changeds, resyncStateNeeded).

(** Modelled from the spec: [uninstallWatch] is not part of the sources;
    "removes the watch; if its filter is unreferenced, drops it", filters
    being "reference-counted by watches". *)
Definition uninstallWatch (_i : Z) (c : Client) : Client :=
  match m_watches c !! _i with
  | None => c
  | Some w =>
      let c1 := set_m_watches (delete _i (m_watches c)) c in
      match m_filters c1 !! id w with
      | None => c1
      | Some f =>
          if u32 (refCount f - 1) =? 0
          then set_m_filters (delete (id w) (m_filters c1)) c1
          else set_m_filters
                 (<[id w := {| filter := filter f; refCount := u32 (refCount f - 1);
                              changes := changes f |}]> (m_filters c1)) c1
      end
  end.

(** The readings of [chrono::system_clock::now()] during the collection: at
    the five-second test, when the watch [key] is examined, and when
    [m_lastGarbageCollection] is assigned. *)
Record Clock := mkClock {
  now_check : Z;
  now_watch : Z → Z;
  now_done : Z
}.

(** [keysOf(m_watches)]: the keys in ascending order. *)
Definition keysOf (m : gmap Z ClientWatch) : list Z :=
  merge_sort Z.le (map_to_list m).*1.

(** [m_watches[key].lastPoll != time_point::max()
     && now() - m_watches[key].lastPoll > seconds(20)]; the difference of
    two time points is a signed 64-bit count of ticks, and it is taken only
    when the first test has passed. *)
Definition expired (clk : Clock) (c : Client) (key : Z) : bool :=
  match m_watches c !! key with
  | Some w =>
      negb (lastPoll w =? time_point_max)
      && (seconds 20 <? s64 (now_watch clk key - lastPoll w))
  | None => false
  end.

Definition toUninstall (clk : Clock) (c : Client) : list Z :=
  List.filter (expired clk c) (keysOf (m_watches c)).

(** [if (now() - m_lastGarbageCollection > seconds(5)) { ... }]; the second
    component tells whether the collection ran. *)
Definition doWork_gc (clk : Clock) (c : Client) : Client * bool :=
  if seconds 5 <? s64 (now_check clk - m_lastGarbageCollection c) then
    let c1 := foldl (λ acc i, uninstallWatch i acc) c (toUninstall clk c) in
    let c2 := set_m_bc (garbageCollect (m_bc c1)) c1 in
    (set_m_lastGarbageCollection (now_done clk) c2, true)
  else (c, false).

(** What a pass tells besides the new client: the filters noted as changed,
    whether it slept for 100 ms, whether the collection ran. *)
Record WorkReport := mkWorkReport {
  wr_changeds : gset Z;
  wr_slept : bool;
  wr_collected : bool
}.

(** [void Client::doWork()] *)
Definition doWork (clk : Clock) (c : Client) : option (Client * WorkReport) :=
  let '(c1, changeds1) := doWork_miners c in
  let '(c2, changeds2, stillGotWork) := doWork_chain c1 changeds1 in
  let '(c3, changeds3, resync3) := doWork_preMine c2 changeds2 in
  r ← doWork_pending c3 changeds3 resync3;
  let '(c4, changeds, resyncStateNeeded) := (r : Client * gset Z * bool) in
  let c5 := if decide (changeds ≠ ∅) then set_m_host (noteNewBlocks <$> m_host c4) c4 else c4 in
  let c6 := if resyncStateNeeded then noteStateChange_all c5 else c5 in
  let c7 := noteChanged changeds c6 in
  let '(c8, collected) := doWork_gc clk c7 in
  Some (c8, {| wr_changeds := changeds; wr_slept := negb stillGotWork;
               wr_collected := collected |}).

End Client.

End ClientModel.

(** * Properties *)

(** ** hashrate *)

Module HashrateFacts.
Import ClientModel.

(** A miner whose counters can be divided: a count of hashes and a positive
    number of milliseconds. *)
Definition measurable (m : LocalMiner) : Prop :=
  0 ≤ hashes (miningProgress m) ∧ 0 < ms (miningProgress m).

Lemma rate_sum_nonneg miners : Forall measurable miners → 0 ≤ rate_sum miners.
Proof.
  induction 1 as [|m rest [Hh Hm] _ IH]; simpl; [done|].
  pose proof (Z.div_pos _ _ Hh Hm). lia.
Qed.

Lemma hashrate_loop_sum miners : ∀ ret,
  Forall measurable miners → 0 ≤ ret → ret + rate_sum miners < 2 ^ 64 →
  hashrate_loop ret miners = Some (ret + rate_sum miners).
Proof.
  induction miners as [|m rest IH]; intros ret Hall Hret Hsum; simpl in *.
  - f_equal. lia.
  - apply Forall_cons in Hall as [[Hh Hm] Hrest].
    pose proof (Z.div_pos _ _ Hh Hm) as Hq.
    pose proof (rate_sum_nonneg _ Hrest) as Hs.
    rewrite udiv_Some by lia. simpl.
    rewrite u64_small by lia.
    rewrite IH by (done || lia). f_equal. lia.
Qed.

Lemma hashrate_loop_None miners : ∀ ret,
  hashrate_loop ret miners = None ↔ Exists (λ m, ms (miningProgress m) = 0) miners.
Proof.
  induction miners as [|m rest IH]; intros ret; simpl.
  - rewrite Exists_nil. split; [discriminate|tauto].
  - rewrite Exists_cons. unfold udiv. case_decide as Hz; simpl.
    + split; [by left|done].
    + rewrite IH. split; [by right|]. by intros [?|?].
Qed.

Section Facts.
Context `{ChainStore} `{TxPool} `{!StateModel} `{LogFilterModel} `{!ExecutiveModel}.

(** C9. Whenever every local miner has a count of hashes and a positive
    number of elapsed milliseconds (and the 64-bit accumulator does not
    overflow), [hashrate()] returns the sum over the miners of
    [hashes / ms], each quotient an integer division on that miner's own
    counters, divided by 1000. *)
Theorem hashrate_sum_of_quotients (c : Client) :
  Forall measurable (m_localMiners c) →
  rate_sum (m_localMiners c) < 2 ^ 64 →
  hashrate c = Some (rate_sum (m_localMiners c) / 1000).
Proof.
  intros Hall Hsum. unfold hashrate, hashrate_of.
  rewrite (hashrate_loop_sum _ 0) by (done || lia). simpl.
  do 2 f_equal.
Qed.

(** C10. The division of [hashrate()] has no guard: the function has no
    result exactly when some local miner has an elapsed-milliseconds counter
    of zero, and the miners that [setMiningThreads] has just set up are in
    that state. *)
Theorem hashrate_division_by_zero_reachable :
  (∀ c : Client,
     hashrate c = None ↔ Exists (λ m, ms (miningProgress m) = 0) (m_localMiners c))
  ∧ (∀ (c : Client) (t : nat),
       (0 < t)%nat → hashrate (set_m_localMiners (fresh_miners t) c) = None).
Proof.
  split.
  - intros c. unfold hashrate, hashrate_of.
    rewrite <- (hashrate_loop_None _ 0).
    destruct (hashrate_loop 0 (m_localMiners c)); simpl; naive_solver.
  - intros c t Ht. unfold hashrate. simpl.
    destruct t as [|t]; [lia|]. reflexivity.
Qed.

End Facts.

End HashrateFacts.

(** ** The version checker *)

Module VersionFacts.
Import Version.

Section Facts.
Context `{Constants} `{RLPCodec} `{FileSystem}.

Lemma m_path_new fs dbPath :
  m_path (VersionChecker_new fs dbPath)
  = if (0 <? String.length dbPath)%nat then dbPath else Defaults_dbPath.
Proof. reflexivity. Qed.

(** The action in terms of the three conversions. *)
Lemma m_action_new fs dbPath :
  m_action (VersionChecker_new fs dbPath)
  = match status_record fs (m_path (VersionChecker_new fs dbPath)) with
    | Some (P, m, D) =>
        if decide (P = c_protocolVersion ∧ D = c_databaseVersion)
        then if decide (m = c_minorProtocolVersion) then Trust else Verify
        else Kill
    | None => Kill
    end.
Proof.
  rewrite m_path_new. unfold VersionChecker_new, status_record. simpl.
  set (path := if (0 <? String.length dbPath)%nat then dbPath else Defaults_dbPath).
  destruct (rlp_toUnsigned (rlp_at (rlp_of_bytes (contents fs (status_path path))) 0))
    as [P|]; simpl; [|done].
  destruct (rlp_toUnsigned (rlp_at (rlp_of_bytes (contents fs (status_path path))) 1))
    as [m|]; simpl; [|done].
  destruct (rlp_toUnsigned (rlp_at (rlp_of_bytes (contents fs (status_path path))) 2))
    as [D|]; simpl; [|done].
  destruct (Z.eqb_spec P c_protocolVersion), (Z.eqb_spec D c_databaseVersion),
    (Z.eqb_spec m c_minorProtocolVersion); simpl;
    repeat case_decide; try done; tauto.
Qed.

(** C2. With [P, m, D] the record read from the status file and
    [(P', m', D')] the compiled-in constants, the action is [Trust] iff the
    three fields equal the constants, [Verify] iff [P = P'] and [D = D'] but
    [m ≠ m'], and [Kill] in every other case: some field differs in [P] or
    [D], or no three-field record can be read (the conversions throw, as for
    an absent or corrupt file). *)
Theorem VersionChecker_action (fs : FS) (dbPath : string) :
  let vc := VersionChecker_new fs dbPath in
  let record := status_record fs (m_path vc) in
  (m_action vc = Trust ↔
     ∃ P m D, record = Some (P, m, D)
       ∧ P = c_protocolVersion ∧ m = c_minorProtocolVersion ∧ D = c_databaseVersion)
  ∧ (m_action vc = Verify ↔
     ∃ P m D, record = Some (P, m, D)
       ∧ P = c_protocolVersion ∧ D = c_databaseVersion ∧ m ≠ c_minorProtocolVersion)
  ∧ (m_action vc = Kill ↔
     record = None
     ∨ ∃ P m D, record = Some (P, m, D)
         ∧ (P ≠ c_protocolVersion ∨ D ≠ c_databaseVersion)).
Proof.
  intros vc record. subst vc record. rewrite m_action_new.
  destruct (status_record fs _) as [[[P m] D]|].
  - destruct (decide (P = c_protocolVersion ∧ D = c_databaseVersion)) as [[-> ->]|Hne];
      [destruct (decide (m = c_minorProtocolVersion)) as [->|Hm]|].
    + split; [|split]; split; try done.
      * intros _. by exists c_protocolVersion, c_minorProtocolVersion, c_databaseVersion.
      * intros (P0 & m0 & D0 & [= <- <- <-] & _ & _ & Hm). done.
      * intros [[=]|(P0 & m0 & D0 & [= <- <- <-] & [HP|HD])]; done.
    + split; [|split]; split; try done.
      * intros (P0 & m0 & D0 & [= <- <- <-] & _ & Hm' & _). done.
      * intros _. by exists c_protocolVersion, m, c_databaseVersion.
      * intros [[=]|(P0 & m0 & D0 & [= <- <- <-] & [HP|HD])]; done.
    + split; [|split]; split; try done.
      * intros (P0 & m0 & D0 & [= <- <- <-] & HP & _ & HD). tauto.
      * intros (P0 & m0 & D0 & [= <- <- <-] & HP & HD & _). tauto.
      * intros _. right. exists P, m, D. split; [done|].
        destruct (decide (P = c_protocolVersion)); [|by left].
        destruct (decide (D = c_databaseVersion)); [|by right]. tauto.
  - split; [|split]; split; try done.
    + by intros (P0 & m0 & D0 & [=] & _).
    + by intros (P0 & m0 & D0 & [=] & _).
    + intros _. by left.
Qed.

(** C8, amended. On a startup whose action is not [Trust] and on which the
    data directory is there or is created ([create_directory] returns),
    [setOk] rewrites the status file in the file system that
    [create_directory] has left, and afterwards the file holds exactly the
    encoding of the compiled-in constants; when the action is [Trust],
    [setOk] leaves the files as they are. *)
Theorem setOk_rewrites_unless_trusted (vc : VersionChecker) (fs : FS) :
  (m_action vc ≠ Trust →
     ∀ fs1, create_directory fs (m_path vc) = Some fs1 →
       setOk vc fs
       = writeFile fs1 (status_path (m_path vc))
           (rlpList3 c_protocolVersion c_minorProtocolVersion c_databaseVersion)
       ∧ contents (setOk vc fs) (status_path (m_path vc))
         = rlpList3 c_protocolVersion c_minorProtocolVersion c_databaseVersion)
  ∧ (m_action vc = Trust → setOk vc fs = fs).
Proof.
  unfold setOk. split; intros Ha; case_decide; try done.
  intros fs1 Hdir. rewrite Hdir. simpl. split; [done|].
  by apply (contents_writeFile fs (m_path vc) fs1 "status").
Qed.

End Facts.

End VersionFacts.

(** ** call *)

Module CallFacts.
Import ClientModel.

Section Facts.
Context `{ChainStore} `{TxPool} `{!StateModel} `{LogFilterModel} `{!ExecutiveModel}.

Lemma u256_add_mul (v p g : Z) : u256 (v + u256 (p * g)) = u256 (v + p * g).
Proof. unfold u256. apply Zplus_mod_idemp_r. Qed.

(** The steps of [call] that can throw, in program order. *)
Inductive CallThrows (c : Client) (_dest : Address) (_data : bytes)
    (_gas _value _gasPrice : Z) (_from : Address) : Prop :=
  | throws_addBalance :
      addBalance (m_postMine c) _from (u256 (_value + _gasPrice * _gas)) = None →
      CallThrows c _dest _data _gas _value _gasPrice _from
  | throws_Executive temp :
      addBalance (m_postMine c) _from (u256 (_value + _gasPrice * _gas)) = Some temp →
      Executive_new temp = None →
      CallThrows c _dest _data _gas _value _gasPrice _from
  | throws_call temp e :
      addBalance (m_postMine c) _from (u256 (_value + _gasPrice * _gas)) = Some temp →
      Executive_new temp = Some e →
      exec_call e _dest _dest _from _value _gasPrice _data _gas _from = None →
      CallThrows c _dest _data _gas _value _gasPrice _from
  | throws_go temp e e1 :
      addBalance (m_postMine c) _from (u256 (_value + _gasPrice * _gas)) = Some temp →
      Executive_new temp = Some e →
      exec_call e _dest _dest _from _value _gasPrice _data _gas _from = Some (false, e1) →
      exec_go e1 = None →
      CallThrows c _dest _data _gas _value _gasPrice _from
  | throws_executionResult temp e finished e1 e2 :
      addBalance (m_postMine c) _from (u256 (_value + _gasPrice * _gas)) = Some temp →
      Executive_new temp = Some e →
      exec_call e _dest _dest _from _value _gasPrice _data _gas _from = Some (finished, e1) →
      (if finished then e2 = e1 else exec_go e1 = Some e2) →
      executionResult e2 = None →
      CallThrows c _dest _data _gas _value _gasPrice _from.

(** A simulation that runs to its end, through the interface of the state
    and of the executive: [temp] is the post-mine state credited with
    [_value + _gasPrice * _gas] on [_from] (256-bit arithmetic), the
    executive [e] is made on [temp], the call is set up, [go] runs iff the
    call did not finish at once, and [res] is what the executive reports. *)
Inductive CallRuns (c : Client) (_dest : Address) (_data : bytes)
    (_gas _value _gasPrice : Z) (_from : Address) (res : ExecutionResult) : Prop :=
  | call_runs temp e finished e1 e2 :
      addBalance (m_postMine c) _from (u256 (_value + _gasPrice * _gas)) = Some temp →
      Executive_new temp = Some e →
      exec_call e _dest _dest _from _value _gasPrice _data _gas _from = Some (finished, e1) →
      (if finished then e2 = e1 else exec_go e1 = Some e2) →
      executionResult e2 = Some res →
      CallRuns c _dest _data _gas _value _gasPrice _from res.

(** C3. [call] simulates on a copy of [m_postMine] credited on [_from] with
    [_value + _gasPrice * _gas] (256-bit arithmetic, the plain sum and
    product when they fit in 256 bits): whenever the simulation on that
    credited state runs to its end, [call] returns its result, and every
    result of [call] is that of such a run or the empty one, after a throw.
    The client is returned as it was found: [m_preMine] and [m_postMine]
    have the root hashes they had before. *)
Theorem call_simulates_on_credited_copy (c : Client) (_dest : Address) (_data : bytes)
    (_gas _value _gasPrice : Z) (_from : Address) :
  let r := call c _dest _data _gas _value _gasPrice _from in
  (∀ res, CallRuns c _dest _data _gas _value _gasPrice _from res → r.1 = res)
  ∧ (CallRuns c _dest _data _gas _value _gasPrice _from r.1
     ∨ CallThrows c _dest _data _gas _value _gasPrice _from
       ∧ r.1 = ExecutionResult_empty)
  ∧ (0 ≤ _value + _gasPrice * _gas < 2 ^ 256 →
     u256 (_value + _gasPrice * _gas) = _value + _gasPrice * _gas)
  ∧ r.2 = c
  ∧ rootHash (m_preMine r.2) = rootHash (m_preMine c)
  ∧ rootHash (m_postMine r.2) = rootHash (m_postMine c).
Proof.
  unfold call, call_simulation. simpl. rewrite u256_add_mul.
  split; [|split; [|repeat split; try done; intros Hfit; by apply u256_small]].
  - intros res [temp e finished e1 e2 Ha He Hc Hg Hr].
    rewrite Ha. simpl. rewrite He. simpl. rewrite Hc. simpl.
    destruct finished; simpl.
    + subst e2. by rewrite Hr.
    + rewrite Hg. simpl. by rewrite Hr.
  - destruct (addBalance (m_postMine c) _from (u256 (_value + _gasPrice * _gas)))
      as [temp|] eqn:Ha; simpl; [|right; split; [by apply throws_addBalance|done]].
    destruct (Executive_new temp) as [e|] eqn:He; simpl;
      [|right; split; [by eapply throws_Executive|done]].
    destruct (exec_call e _dest _dest _from _value _gasPrice _data _gas _from)
      as [[finished e1]|] eqn:Hc; simpl;
      [|right; split; [by eapply throws_call|done]].
    destruct finished; simpl.
    + destruct (executionResult e1) as [res|] eqn:Hr; simpl.
      * left. by eapply (call_runs _ _ _ _ _ _ _ _ temp e true e1 e1).
      * right. split; [|done].
        by eapply (throws_executionResult _ _ _ _ _ _ _ temp e true e1 e1).
    + destruct (exec_go e1) as [e2|] eqn:Hg; simpl;
        [|right; split; [by eapply throws_go|done]].
      destruct (executionResult e2) as [res|] eqn:Hr; simpl.
      * left. by eapply (call_runs _ _ _ _ _ _ _ _ temp e false e1 e2).
      * right. split; [|done].
        by eapply (throws_executionResult _ _ _ _ _ _ _ temp e false e1 e2).
Qed.

(** C7. If any step of the simulation throws, [call] returns the empty
    [ExecutionResult]; [call] is a total function, so no failure reaches its
    caller. *)
Theorem call_failure_gives_empty_result (c : Client) (_dest : Address) (_data : bytes)
    (_gas _value _gasPrice : Z) (_from : Address) :
  CallThrows c _dest _data _gas _value _gasPrice _from →
  (call c _dest _data _gas _value _gasPrice _from).1 = ExecutionResult_empty.
Proof.
  unfold call, call_simulation. simpl. rewrite u256_add_mul.
  intros [Ha|temp Ha He|temp e Ha He Hc|temp e e1 Ha He Hc Hg
         |temp e finished e1 e2 Ha He Hc Hg Hr]; rewrite Ha; simpl; try done;
    rewrite He; simpl; try done; rewrite Hc; simpl; try done.
  - by rewrite Hg.
  - destruct finished; simpl.
    + subst e2. by rewrite Hr.
    + rewrite Hg. simpl. by rewrite Hr.
Qed.

End Facts.

End CallFacts.

(** ** The work loop *)

Module WorkLoopFacts.
Import ClientModel.

Section Facts.
Context `{ChainStore} `{TxPool} `{!StateModel} `{LogFilterModel} `{!ExecutiveModel}.

(** *** What a phase leaves alone *)

(** [untouched c c']: the pool, the watches and the time of the last
    collection are those of [c]. *)
Definition untouched (c c' : Client) : Prop :=
  m_tq c' = m_tq c
  ∧ m_watches c' = m_watches c
  ∧ m_lastGarbageCollection c' = m_lastGarbageCollection c.

Lemma untouched_refl c : untouched c c.
Proof. done. Qed.

Lemma untouched_trans c1 c2 c3 : untouched c1 c2 → untouched c2 c3 → untouched c1 c3.
Proof. unfold untouched. intros (-> & -> & ->) (-> & -> & ->). done. Qed.

Lemma appendFromNewBlock_untouched h st : untouched st.1 (appendFromNewBlock h st).1.
Proof. by destruct st. Qed.

Lemma appendFromNewPending_untouched r th st : untouched st.1 (appendFromNewPending r th st).1.
Proof. by destruct st. Qed.

Lemma foldl_untouched {A} (f : Client * gset Z → A → Client * gset Z) (l : list A) :
  (∀ st a, untouched st.1 (f st a).1) →
  ∀ st, untouched st.1 (foldl f st l).1.
Proof.
  intros Hf. induction l as [|a l IH]; intros st; simpl; [done|].
  eapply untouched_trans; [apply Hf|apply IH].
Qed.

Lemma maintainMiner_untouched isComplete blockData st :
  untouched st.1 (maintainMiner isComplete blockData st).1.
Proof.
  unfold maintainMiner. destruct isComplete; [|done]. destruct st as [c changeds].
  destruct (attemptImport _ _ _) as [[[hs ch] bc'] db']. simpl.
  destruct (0 <? length hs)%nat; simpl; [|done].
  apply (foldl_untouched
           (λ acc h, if decide (h ≠ ch) then appendFromNewBlock h acc else acc) hs).
  intros st a. case_decide; [apply appendFromNewBlock_untouched|done].
Qed.

Lemma maintainLocalMiner_untouched st i : untouched st.1 (maintainLocalMiner st i).1.
Proof.
  unfold maintainLocalMiner. destruct (m_localMiners st.1 !! i); [|done].
  apply maintainMiner_untouched.
Qed.

Lemma doWork_miners_untouched c : untouched c (doWork_miners c).1.
Proof.
  unfold doWork_miners.
  eapply untouched_trans; [|apply maintainMiner_untouched].
  apply (foldl_untouched maintainLocalMiner _ maintainLocalMiner_untouched (c, ∅)).
Qed.

Lemma doWork_preMine_untouched c changeds : untouched c (doWork_preMine c changeds).1.1.
Proof.
  unfold doWork_preMine. destruct (st_sync _ _) as [moved pre'].
  by destruct (moved || _).
Qed.

(** *** The pool across a reorganisation *)






Lemma doWork_chain_tq (c : Client) (changeds : gset Z) :
  let r := bc_sync (m_bc c) (m_bq c) (m_stateDB c) 100 in
  m_tq (doWork_chain c changeds).1.1
  = drop_fresh r.1.1.2 r.1.1.1.1.1 (resubmit_dead r.1.1.2 r.1.1.1.1.2 (m_tq c)).
Proof.
  unfold doWork_chain.
  destruct (bc_sync _ _ _ _) as [[[[[fresh dead] sgw] bc'] bq'] db']. simpl.
  destruct (0 <? length fresh)%nat; simpl; [|done].
  apply (foldl_untouched (λ acc i, appendFromNewBlock i acc) fresh
           (λ st a, appendFromNewBlock_untouched a st)
           (set_m_tq (drop_fresh bc' fresh (resubmit_dead bc' dead (m_tq c)))
              (set_m_bq bq' (set_m_bc bc' c)), changeds)).
Qed.


(** The state of the pool, for a pool in which [drop] removes the hash:
    no transaction hash of a fresh block is known to the pool that leaves
    the chain phase. *)
Section PoolState.
Variable known : TransactionQueue → h256 → Prop.
Hypothesis known_drop : ∀ q h h', known (tq_drop q h) h' → known q h' ∧ h' ≠ h.

Lemma drops_absent (hs : list h256) : ∀ q th,
  th ∈ hs → ¬ known (foldl tq_drop q hs) th.
Proof.
  induction hs as [|h hs IH] using rev_ind; intros q th Hin.
  - by apply elem_of_nil in Hin.
  - rewrite foldl_app. simpl. intros Hk. apply known_drop in Hk as [Hk Hne].
    apply elem_of_app in Hin as [Hin|Hin].
    + by apply (IH q th).
    + apply list_elem_of_singleton in Hin. done.
Qed.

Lemma drop_fresh_hashes bc fresh : ∀ q,
  drop_fresh bc fresh q = foldl tq_drop q (fresh ≫= transactionHashes bc).
Proof.
  unfold drop_fresh. induction fresh as [|h fresh IH]; intros q; simpl; [done|].
  by rewrite IH, foldl_app.
Qed.

Lemma doWork_chain_fresh_absent (c : Client) (changeds : gset Z) :
  let r := bc_sync (m_bc c) (m_bq c) (m_stateDB c) 100 in
  ∀ h th, h ∈ r.1.1.1.1.1 → th ∈ transactionHashes r.1.1.2 h →
    ¬ known (m_tq (doWork_chain c changeds).1.1) th.
Proof.
  intros r h th Hh Hth. rewrite doWork_chain_tq. fold r.
  rewrite drop_fresh_hashes. apply drops_absent.
  apply list_elem_of_bind. eauto.
Qed.

End PoolState.

(** *** Pending transactions and the filters *)

Lemma push_changes_nil (f : InstalledFilter) : push_changes f [] = f.
Proof. destruct f. unfold push_changes. simpl. by rewrite app_nil_r. Qed.

Lemma push_changes_app (f : InstalledFilter) es1 es2 :
  push_changes (push_changes f es1) es2 = push_changes f (es1 ++ es2).
Proof. unfold push_changes. simpl. by rewrite app_assoc. Qed.

Lemma appendFromNewPending_filters r th c changeds k :
  m_filters (appendFromNewPending r th (c, changeds)).1 !! k
  = (λ f, push_changes f (pending_entries (m_bc c) (filter f) r th)) <$> m_filters c !! k.
Proof.
  simpl. rewrite lookup_fmap. destruct (m_filters c !! k) as [f|]; simpl; [|done].
  f_equal. unfold pending_entries.
  destruct (envelops _ _ _); [|by rewrite push_changes_nil].
  destruct (matches (filter f) r); simpl; [by rewrite push_changes_nil|done].
Qed.

Lemma appendFromNewPending_bc r th st : m_bc (appendFromNewPending r th st).1 = m_bc st.1.
Proof. by destruct st. Qed.

(** The entries that a filter takes from the receipts [rs], the receipt at
    position [j] going with the applied transaction at position [i + j]. *)
Fixpoint pending_log (bc : BlockChain) (f : LogFilter) (i : nat)
    (rs : list TransactionReceipt) (pend : list Transaction) : list LocalisedLogEntry :=
  match rs with
  | [] => []
  | r :: rest =>
      match pend !! i with
      | Some t => pending_entries bc f r (tx_sha3 t)
      | None => []
      end ++ pending_log bc f (S i) rest pend
  end.

Lemma notify_pending_filters rs : ∀ i pend st,
  (i + length rs ≤ length pend)%nat →
  ∃ st', notify_pending i rs pend st = Some st'
    ∧ m_bc st'.1 = m_bc st.1
    ∧ untouched st.1 st'.1
    ∧ ∀ k, m_filters st'.1 !! k
           = (λ f, push_changes f (pending_log (m_bc st.1) (filter f) i rs pend))
               <$> m_filters st.1 !! k.
Proof.
  induction rs as [|r rs IH]; intros i pend st Hlen; simpl in *.
  - exists st. repeat split; try done. intros k.
    destruct (m_filters st.1 !! k) as [f|]; simpl; [|done]. by rewrite push_changes_nil.
  - destruct (lookup_lt_is_Some_2 pend i) as [t Ht]; [lia|]. rewrite Ht. simpl.
    destruct (IH (S i) pend (appendFromNewPending r (tx_sha3 t) st)) as (st' & Hrun & Hbc & Hun & Hf);
      [lia|].
    exists st'. rewrite appendFromNewPending_bc in Hbc, Hf.
    split; [done|]. split; [done|]. split.
    { eapply untouched_trans; [apply appendFromNewPending_untouched|done]. }
    intros k. rewrite Hf. destruct st as [c changeds].
    rewrite appendFromNewPending_filters. simpl.
    destruct (m_filters c !! k) as [f|]; simpl; [|done].
    by rewrite push_changes_app.
Qed.

(** The entries for one receipt: one per log that the filter selects, with
    the block number [n] and the hash of the transaction. *)
Definition receipt_entries (n : Z) (f : LogFilter) (r : TransactionReceipt)
    (t : Transaction) : list LocalisedLogEntry :=
  (λ l, mkLocalisedLogEntry l n (tx_sha3 t)) <$> matches f r.

Lemma pending_log_enveloped bc f rs : ∀ i pend,
  (i + length rs ≤ length pend)%nat →
  pending_log bc f i rs pend
  = if envelops f Pending (u32 (bc_number bc + 1))
    then concat (zip_with (receipt_entries (u32 (bc_number bc + 1)) f) rs (drop i pend))
    else [].
Proof.
  induction rs as [|r rs IH]; intros i pend Hlen; simpl in *.
  - by destruct (envelops _ _ _).
  - destruct (lookup_lt_is_Some_2 pend i) as [t Ht]; [lia|]. rewrite Ht.
    rewrite (drop_S _ _ _ Ht). simpl. rewrite IH by lia.
    unfold pending_entries, receipt_entries. by destruct (envelops _ _ _).
Qed.

(** The pending phase on its own. When there are no more new receipts than
    pending transactions, the phase completes, and every installed filter
    that envelops the pending block has accumulated, for each new receipt
    in order, one [LocalisedLogEntry] per log of the receipt that it
    matches, carrying the head number plus one (as an [unsigned]) and the
    hash of [pending()[i]], [i] being the position of the receipt among the
    new receipts: that is the hash of the receipt's own transaction only
    when no transaction was pending before the pass. A filter that does not
    envelop the pending block has accumulated nothing. *)
Theorem doWork_pending_accumulates_matching_logs (c : Client) (changeds : gset Z)
    (resyncStateNeeded : bool) :
  let r := st_sync_queue (m_postMine c) (m_bc c) (m_tq c) (m_gp c) in
  let newPendingReceipts := r.1.1 in
  let applied := pending r.1.2 in
  let n := u32 (bc_number (m_bc c) + 1) in
  (length newPendingReceipts ≤ length applied)%nat →
  ∃ out, doWork_pending c changeds resyncStateNeeded = Some out
    ∧ ∀ k f, m_filters c !! k = Some f →
        ∃ f', m_filters out.1.1 !! k = Some f'
          ∧ filter f' = filter f
          ∧ changes f'
            = changes f
              ++ (if envelops (filter f) Pending n
                  then concat (zip_with (receipt_entries n (filter f))
                                 newPendingReceipts applied)
                  else []).
Proof.
  intros r rs applied n Hlen. subst rs applied n. unfold doWork_pending. fold r.
  destruct r as [[rs post'] tq'] eqn:Hr. simpl in *.
  set (c1 := set_m_tq tq' (set_m_postMine post' c)).
  destruct (0 <? length rs)%nat eqn:Hnonempty.
  - destruct (notify_pending_filters rs 0 (pending post') (c1, changeds))
      as (st' & Hrun & Hbc & _ & Hf); [simpl; lia|].
    change (pending (m_postMine c1)) with (pending post').
    rewrite Hrun. simpl. eexists. split; [done|]. simpl.
    intros k f Hk. rewrite Hf. simpl. rewrite Hk. simpl.
    eexists. split; [done|]. split; [done|]. simpl. f_equal.
    rewrite pending_log_enveloped by (simpl; lia). by rewrite drop_0.
  - eexists. split; [done|]. simpl. intros k f Hk. exists f.
    split; [done|]. split; [done|].
    apply Nat.ltb_ge in Hnonempty. destruct rs; simpl in *; [|lia].
    destruct (envelops _ _ _); by rewrite app_nil_r.
Qed.

(** *** Collection of idle watches *)

(** The last-poll times of the watches, by key. *)
Definition polls (c : Client) : gmap Z Z := lastPoll <$> m_watches c.

(** [kept c c']: same last-poll times and same time of the last collection. *)
Definition kept (c c' : Client) : Prop :=
  polls c' = polls c ∧ m_lastGarbageCollection c' = m_lastGarbageCollection c.

Lemma kept_trans c1 c2 c3 : kept c1 c2 → kept c2 c3 → kept c1 c3.
Proof. unfold kept. intros [-> ->] [-> ->]. done. Qed.

Lemma untouched_kept c c' : untouched c c' → kept c c'.
Proof. unfold untouched, kept, polls. intros (_ & -> & ->). done. Qed.

Lemma doWork_chain_kept c changeds : kept c (doWork_chain c changeds).1.1.
Proof.
  unfold doWork_chain.
  destruct (bc_sync _ _ _ _) as [[[[[fresh dead] sgw] bc'] bq'] db']. simpl.
  destruct (0 <? length fresh)%nat; simpl; [|done].
  apply (untouched_kept
           (set_m_tq (drop_fresh bc' fresh (resubmit_dead bc' dead (m_tq c)))
              (set_m_bq bq' (set_m_bc bc' c)))).
  apply (foldl_untouched (λ acc i, appendFromNewBlock i acc) fresh
           (λ st a, appendFromNewBlock_untouched a st)
           (set_m_tq (drop_fresh bc' fresh (resubmit_dead bc' dead (m_tq c)))
              (set_m_bq bq' (set_m_bc bc' c)), changeds)).
Qed.

Lemma notify_pending_untouched rs : ∀ i pend st st',
  notify_pending i rs pend st = Some st' → untouched st.1 st'.1.
Proof.
  induction rs as [|r rs IH]; intros i pend st st' Hrun; simpl in *.
  - by injection Hrun as <-.
  - destruct (pend !! i) as [t|]; simpl in *; [|done].
    eapply untouched_trans; [apply appendFromNewPending_untouched|by eapply IH].
Qed.

Lemma doWork_pending_kept c changeds resync out :
  doWork_pending c changeds resync = Some out → kept c out.1.1.
Proof.
  unfold doWork_pending.
  destruct (st_sync_queue _ _ _ _) as [[rs post'] tq'].
  destruct (0 <? length rs)%nat.
  - destruct (notify_pending _ _ _ _) as [st'|] eqn:Hrun; simpl; [|done].
    intros [= <-]. simpl.
    apply notify_pending_untouched in Hrun. by apply untouched_kept in Hrun.
  - by intros [= <-].
Qed.

Lemma noteChanged_kept changeds c : kept c (noteChanged changeds c).
Proof.
  unfold kept, polls, noteChanged. simpl. split; [|done].
  rewrite <- map_fmap_compose. apply map_fmap_ext. intros k w _. simpl.
  case_decide; [|done]. by destruct (m_filters c !! id w).
Qed.

Lemma elem_of_keysOf (m : gmap Z ClientWatch) key : key ∈ keysOf m ↔ is_Some (m !! key).
Proof.
  unfold keysOf. rewrite merge_sort_Permutation, list_elem_of_fmap. split.
  - intros ([k w] & -> & Hin). apply elem_of_map_to_list in Hin. by exists w.
  - intros [w Hw]. exists (key, w). split; [done|]. by apply elem_of_map_to_list.
Qed.

Lemma expired_polls clk c key :
  expired clk c key
  = match polls c !! key with
    | Some lp =>
        negb (lp =? time_point_max) && (seconds 20 <? s64 (now_watch clk key - lp))
    | None => false
    end.
Proof. unfold expired, polls. rewrite lookup_fmap. by destruct (m_watches c !! key). Qed.

Lemma uninstallWatch_watches i c :
  m_watches (uninstallWatch i c) = delete i (m_watches c)
  ∧ m_lastGarbageCollection (uninstallWatch i c) = m_lastGarbageCollection c.
Proof.
  unfold uninstallWatch. destruct (m_watches c !! i) as [w|] eqn:Hw.
  - simpl. destruct (m_filters c !! id w) as [f|]; [|done].
    by destruct (u32 (refCount f - 1) =? 0).
  - split; [|done]. symmetry. by apply delete_id.
Qed.

Lemma uninstall_all_watches l : ∀ c key,
  m_watches (foldl (λ acc i, uninstallWatch i acc) c l) !! key
  = (if decide (key ∈ l) then None else m_watches c !! key)
  ∧ m_lastGarbageCollection (foldl (λ acc i, uninstallWatch i acc) c l)
    = m_lastGarbageCollection c.
Proof.
  induction l as [|i l IH]; intros c key; cbn [foldl].
  - split; [|done]. rewrite decide_False; [done|apply not_elem_of_nil].
  - destruct (IH (uninstallWatch i c) key) as [-> ->].
    destruct (uninstallWatch_watches i c) as [-> ->]. split; [|done].
    destruct (decide (key = i)) as [->|Hne].
    + rewrite lookup_delete_eq.
      destruct (decide (i ∈ l)), (decide (i ∈ i :: l)) as [|Hnot]; try done;
        exfalso; apply Hnot; left.
    + rewrite lookup_delete_ne by done.
      destruct (decide (key ∈ l)) as [Hin|Hin], (decide (key ∈ i :: l)) as [Hin'|Hin'];
        try done.
      * exfalso. apply Hin'. by right.
      * apply elem_of_cons in Hin' as [->|?]; done.
Qed.

(** The collection on its own. *)
Lemma doWork_gc_watches clk c :
  ((doWork_gc clk c).2 = true
     ↔ seconds 5 < s64 (now_check clk - m_lastGarbageCollection c))
  ∧ ((doWork_gc clk c).2 = false → (doWork_gc clk c).1 = c)
  ∧ ((doWork_gc clk c).2 = true →
       m_lastGarbageCollection (doWork_gc clk c).1 = now_done clk
       ∧ ∀ key, m_watches (doWork_gc clk c).1 !! key
                = if expired clk c key then None else m_watches c !! key).
Proof.
  unfold doWork_gc.
  destruct (Z.ltb_spec (seconds 5) (s64 (now_check clk - m_lastGarbageCollection c)));
    simpl.
  - split; [done|]. split; [done|]. intros _. split; [done|]. intros key.
    destruct (uninstall_all_watches (toUninstall clk c) c key) as [-> _].
    unfold toUninstall. case_decide as Hin.
    + apply list_elem_of_In, filter_In in Hin as [_ ->]. done.
    + destruct (expired clk c key) eqn:Hex; [|done].
      exfalso. apply Hin. apply list_elem_of_In, filter_In. split; [|done].
      apply list_elem_of_In, elem_of_keysOf.
      unfold expired in Hex. by destruct (m_watches c !! key).
  - split; [split; [done|lia]|]. split; done.
Qed.

(** The client on which the collection of a pass runs has the last-poll
    times and the time of the last collection of the client that entered
    the pass. *)
Lemma doWork_gc_input clk c c' rep :
  doWork clk c = Some (c', rep) →
  ∃ c7, kept c c7 ∧ doWork_gc clk c7 = (c', wr_collected rep).
Proof.
  unfold doWork.
  destruct (doWork_miners c) as [c1 changeds1] eqn:E1.
  destruct (doWork_chain c1 changeds1) as [[c2 changeds2] sgw] eqn:E2.
  destruct (doWork_preMine c2 changeds2) as [[c3 changeds3] resync3] eqn:E3.
  destruct (doWork_pending c3 changeds3 resync3) as [[[c4 changeds] resync]|] eqn:E4;
    simpl; [|done].
  set (c5 := if decide (changeds ≠ ∅) then _ else c4).
  set (c6 := if resync then _ else c5).
  destruct (doWork_gc clk (noteChanged changeds c6)) as [c8 collected] eqn:E8.
  intros [= <- <-]. simpl. exists (noteChanged changeds c6). split; [|done].
  pose proof (untouched_kept _ _ (doWork_miners_untouched c)) as K1. rewrite E1 in K1.
  pose proof (doWork_chain_kept c1 changeds1) as K2. rewrite E2 in K2.
  pose proof (untouched_kept _ _ (doWork_preMine_untouched c2 changeds2)) as K3.
  rewrite E3 in K3.
  pose proof (doWork_pending_kept _ _ _ _ E4) as K4. simpl in *.
  assert (kept c4 c5) as K5 by (subst c5; by case_decide).
  assert (kept c5 c6) as K6 by (subst c6; by destruct resync).
  pose proof (noteChanged_kept changeds c6) as K7.
  repeat (eapply kept_trans; [eassumption|]). done.
Qed.

(** C6. Provided the differences of time points that the pass takes fit the
    signed 64-bit tick count of a duration (which they do for a clock, poll
    times and a collection time less than 146 years apart): in a pass of
    the work loop the collection of watches runs exactly when more than five
    seconds separate the clock from the time recorded at the end of the
    previous collection, so that two collections are more than five seconds
    apart. When it runs, it removes exactly the watches whose [lastPoll] is
    set (is not [time_point::max()]) and lies more than twenty seconds
    before the clock reading taken for that watch: a watch polled within the
    last twenty seconds stays, and so does a watch whose [lastPoll] was
    never set. When it does not run, no watch is removed. *)
Theorem doWork_collects_watches_idle_20s_every_5s (clk : Clock) (c c' : Client)
    (rep : WorkReport) :
  doWork clk c = Some (c', rep) →
  - 2 ^ 63 ≤ now_check clk - m_lastGarbageCollection c < 2 ^ 63 →
  map_Forall (λ key w, lastPoll w ≠ time_point_max →
                - 2 ^ 63 ≤ now_watch clk key - lastPoll w < 2 ^ 63) (m_watches c) →
  (wr_collected rep = true
     ↔ seconds 5 < now_check clk - m_lastGarbageCollection c)
  ∧ (wr_collected rep = false →
       m_lastGarbageCollection c' = m_lastGarbageCollection c
       ∧ ∀ key, is_Some (m_watches c' !! key) ↔ is_Some (m_watches c !! key))
  ∧ (wr_collected rep = true →
       m_lastGarbageCollection c' = now_done clk
       ∧ (∀ key w, m_watches c !! key = Some w →
            (m_watches c' !! key = None
               ↔ lastPoll w ≠ time_point_max
                 ∧ seconds 20 < now_watch clk key - lastPoll w))
       ∧ (∀ clk2 c2 c2' rep2,
            m_lastGarbageCollection c2 = m_lastGarbageCollection c' →
            - 2 ^ 63 ≤ now_check clk2 - m_lastGarbageCollection c2 < 2 ^ 63 →
            doWork clk2 c2 = Some (c2', rep2) →
            wr_collected rep2 = true →
            seconds 5 < now_check clk2 - now_done clk)).
Proof.
  intros Hrun Hfit Hfits.
  destruct (doWork_gc_input _ _ _ _ Hrun) as (c7 & [Hpolls Hlast] & Hgc).
  destruct (doWork_gc_watches clk c7) as (Hiff & Hskip & Hdone).
  rewrite Hgc, Hlast in *. simpl in *.
  rewrite (s64_small _ Hfit) in Hiff.
  assert (∀ key, lastPoll <$> m_watches c7 !! key = lastPoll <$> m_watches c !! key)
    as Hpoll.
  { intros key. unfold polls in Hpolls. by rewrite <- !lookup_fmap, Hpolls. }
  split; [done|]. split.
  - intros Hno. specialize (Hskip Hno). subst c'. split; [done|].
    intros key. specialize (Hpoll key). rewrite <- !fmap_is_Some with (f := lastPoll).
    by rewrite Hpoll.
  - intros Hyes. destruct (Hdone Hyes) as [Hstamp Hwatches]. split; [done|]. split.
    + intros key w Hw. rewrite Hwatches, expired_polls, Hpolls.
      unfold polls. rewrite lookup_fmap, Hw. simpl.
      specialize (Hpoll key). rewrite Hw in Hpoll. simpl in Hpoll.
      destruct (m_watches c7 !! key) as [w7|] eqn:Hw7; [|done].
      destruct (Z.eqb_spec (lastPoll w) time_point_max) as [Hmax|Hset];
        cbn [negb andb].
      { split; [done|]. by intros [? _]. }
      rewrite (s64_small _ (Hfits key w Hw Hset)).
      destruct (Z.ltb_spec (seconds 20) (now_watch clk key - lastPoll w)); simpl.
      * split; [intros _; by split|done].
      * split; [done|]. intros [_ ?]. lia.
    + intros clk2 c2 c2' rep2 Hsame Hfit2 Hrun2 Hyes2.
      destruct (doWork_gc_input _ _ _ _ Hrun2) as (c27 & [_ Hlast2] & Hgc2).
      destruct (doWork_gc_watches clk2 c27) as (Hiff2 & _ & _).
      rewrite Hgc2 in Hiff2. simpl in Hiff2. apply Hiff2 in Hyes2.
      rewrite Hlast2, (s64_small _ Hfit2), Hsame, Hstamp in Hyes2. done.
Qed.

End Facts.

End WorkLoopFacts.

(** * A small concrete world

    Instances of the collaborator interfaces that compute, and the
    properties above at concrete inputs. *)

Module Sample.
Import Version ClientModel GasPrice.

(** ** Constants, RLP and files *)

#[local] Instance sample_constants : Constants :=
  {| c_protocolVersion := 60;
     c_minorProtocolVersion := 1;
     c_databaseVersion := 9;
     Defaults_dbPath := ".ethereum" |}.

Definition byte_val (b : Byte.byte) : Z := Z.of_N (Byte.to_N b).

Definition byte_of (z : Z) : Byte.byte := default Byte.x00 (Byte.of_N (Z.to_N z)).

(** Big-endian value of a byte string. *)
Definition be_value (bs : bytes) : Z := foldl (λ acc b, acc * 256 + byte_val b) 0 bs.

(** The short forms of the RLP encoding: a single byte below [0x80], a
    string of up to 55 bytes ([0x80 + length]), a list with a payload of up
    to 55 bytes ([0xc0 + length]). [item_size] is the number of bytes of the
    item at the front, [0] when there is none. *)
Definition item_size (r : bytes) : nat :=
  match r with
  | [] => 0
  | b :: _ =>
      let v := byte_val b in
      if v <? 128 then 1
      else if v <? 184 then S (Z.to_nat (v - 128))
      else if v <? 192 then 0
      else if v <? 248 then S (Z.to_nat (v - 192))
      else 0
  end.

Definition is_list (r : bytes) : bool :=
  match r with
  | [] => false
  | b :: _ => (192 <=? byte_val b) && (byte_val b <? 248)
  end.

Fixpoint skip_items (n : nat) (p : bytes) : bytes :=
  match n with
  | O => p
  | S n' =>
      match item_size p with
      | O => []
      | sz => skip_items n' (drop sz p)
      end
  end.

(** [r[i]]: the item [i] of a list, the null item otherwise. *)
Definition mini_at (r : bytes) (i : nat) : bytes :=
  if is_list r then
    let p := skip_items i (take (item_size r - 1) (drop 1 r)) in
    take (item_size p) p
  else [].

(** The conversion to [unsigned]: strings of at most four bytes convert,
    everything else (the null item, lists, longer strings) throws. *)
Definition mini_toUnsigned (r : bytes) : option Z :=
  match r with
  | [] => None
  | b :: rest =>
      let v := byte_val b in
      if v <? 128 then Some v
      else if v <=? 132 then
        let n := Z.to_nat (v - 128) in
        if (length rest <? n)%nat then None else Some (be_value (take n rest))
      else None
  end.

Definition be_bytes (x : Z) : bytes :=
  if x <=? 0 then []
  else if x <? 256 then [byte_of x]
  else if x <? 65536 then [byte_of (x / 256); byte_of (x mod 256)]
  else if x <? 16777216 then
    [byte_of (x / 65536); byte_of (x / 256 mod 256); byte_of (x mod 256)]
  else [byte_of (x / 16777216 mod 256); byte_of (x / 65536 mod 256);
        byte_of (x / 256 mod 256); byte_of (x mod 256)].

Definition enc_unsigned (x : Z) : bytes :=
  if (0 <? x) && (x <? 128) then [byte_of x]
  else byte_of (128 + Z.of_nat (length (be_bytes x))) :: be_bytes x.

Definition enc_list (items : list bytes) : bytes :=
  byte_of (192 + Z.of_nat (length (concat items))) :: concat items.

#[local] Instance mini_rlp : RLPCodec :=
  {| RLP := bytes;
     rlp_of_bytes := λ b, b;
     rlp_at := mini_at;
     rlp_toUnsigned := mini_toUnsigned;
     rlpList3 := λ a b c, enc_list [enc_unsigned a; enc_unsigned b; enc_unsigned c] |}.

(** Files by path and the directories that exist; a missing file reads as
    no bytes. *)
Record Files := mkFiles {
  files : gmap string (list Byte.byte);
  dirs : gset string
}.

(** The directory part of a path: what precedes its last slash. *)
Fixpoint dir_of (p : string) : string :=
  match p with
  | EmptyString => EmptyString
  | String c rest => if has_slash rest then String c (dir_of rest) else EmptyString
  end.

(** The working directory is always there. *)
Definition dir_exists (fs : Files) (d : string) : Prop := d = EmptyString ∨ d ∈ dirs fs.

#[local] Instance dir_exists_dec fs d : Decision (dir_exists fs d).
Proof. unfold dir_exists. apply _. Defined.

(** A file is written where its directory exists, and not otherwise. *)
Definition sample_writeFile (fs : Files) (p : string) (b : list Byte.byte) : Files :=
  if decide (dir_exists fs (dir_of p))
  then {| files := <[p := b]> (files fs); dirs := dirs fs |}
  else fs.

(** A directory is made inside an existing one; making it again is no
    error. *)
Definition sample_create_directory (fs : Files) (d : string) : option Files :=
  if decide (dir_exists fs d ∨ dir_exists fs (dir_of d))
  then Some {| files := files fs; dirs := {[d]} ∪ dirs fs |}
  else None.

Lemma has_slash_file d name : has_slash (d +:+ String "/" name) = true.
Proof.
  induction d as [|c d IH]; [done|].
  change (String c d +:+ String "/" name) with (String c (d +:+ String "/" name)).
  cbn [has_slash]. rewrite IH. by destruct (Ascii.eqb c "/").
Qed.

Lemma dir_of_file d name : has_slash name = false → dir_of (d +:+ String "/" name) = d.
Proof.
  intros Hname. induction d as [|c d IH].
  - change (EmptyString +:+ String "/" name) with (String "/" name).
    cbn [dir_of]. by rewrite Hname.
  - change (String c d +:+ String "/" name) with (String c (d +:+ String "/" name)).
    cbn [dir_of]. by rewrite has_slash_file, IH.
Qed.

#[local] Program Instance sample_fs : FileSystem :=
  {| FS := Files;
     contents := λ fs p, default [] (files fs !! p);
     writeFile := sample_writeFile;
     create_directory := sample_create_directory |}.
Next Obligation.
  intros fs d fs' name b Hname. unfold sample_create_directory, sample_writeFile.
  destruct (decide (dir_exists fs d ∨ dir_exists fs (dir_of d))) as [_|_];
    intros Hmade; [|discriminate Hmade].
  injection Hmade as <-. rewrite dir_of_file by done.
  rewrite decide_True; [simpl; by rewrite lookup_insert_eq|].
  right. simpl. set_solver.
Qed.

Definition no_files : FS := {| files := ∅; dirs := ∅ |}.

(** A status file with a fourth field after the three constants. *)
Definition four_fields : FS :=
  {| files := {[ ".ethereum/status" :=
                 enc_list [enc_unsigned 60; enc_unsigned 1; enc_unsigned 9; enc_unsigned 0] ]};
     dirs := {[ ".ethereum" ]} |}.

(** A status file written by a build with database version 8. *)
Definition old_database : FS :=
  {| files := {[ ".ethereum/status" := rlpList3 60 1 8 ]}; dirs := {[ ".ethereum" ]} |}.

Example absent_status_is_Kill : m_action (VersionChecker_new no_files "") = Kill.
Proof. reflexivity. Qed.

Example old_database_is_Kill : m_action (VersionChecker_new old_database "") = Kill.
Proof. vm_compute. reflexivity. Qed.

Example minor_differs_is_Verify :
  m_action (VersionChecker_new
              {| files := {[ "db/status" := rlpList3 60 0 9 ]}; dirs := ∅ |} "db") = Verify.
Proof. vm_compute. reflexivity. Qed.

Example written_status_is_Trust :
  m_action (VersionChecker_new
              (setOk (VersionChecker_new old_database "") old_database) "") = Trust.
Proof. vm_compute. reflexivity. Qed.

(** Where the data directory cannot be made, [create_directory] throws, the
    write fails, and no status file is there afterwards. *)
Example setOk_without_directory :
  m_action (VersionChecker_new no_files "nodir/sub") = Kill
  ∧ create_directory no_files "nodir/sub" = None
  ∧ setOk (VersionChecker_new no_files "nodir/sub") no_files = no_files.
Proof. repeat split; vm_compute; reflexivity. Qed.

(** C8 as stated fails: the check of [four_fields] gives [Trust], [setOk]
    then writes nothing, and the status file is not the encoding of the
    three constants. *)
Lemma setOk_leaves_trusted_status_file :
  m_action (VersionChecker_new four_fields "") = Trust
  ∧ contents (setOk (VersionChecker_new four_fields "") four_fields)
      (status_path (m_path (VersionChecker_new four_fields "")))
    ≠ rlpList3 c_protocolVersion c_minorProtocolVersion c_databaseVersion.
Proof. split; [by vm_compute|]. vm_compute. discriminate. Qed.

Lemma setOk_rewrites_unless_trusted_witness :
  contents (setOk (VersionChecker_new old_database "") old_database)
    (status_path (m_path (VersionChecker_new old_database "")))
  = rlpList3 c_protocolVersion c_minorProtocolVersion c_databaseVersion
  ∧ setOk (VersionChecker_new four_fields "") four_fields = four_fields.
Proof.
  split.
  - refine (proj2 (proj1 (@VersionFacts.setOk_rewrites_unless_trusted
                             sample_constants mini_rlp sample_fs
                             (VersionChecker_new old_database "") old_database)
                     _ old_database _)).
    + vm_compute. discriminate.
    + vm_compute. reflexivity.
  - apply (@VersionFacts.setOk_rewrites_unless_trusted sample_constants mini_rlp sample_fs
             (VersionChecker_new four_fields "") four_fields).
    vm_compute. reflexivity.
Defined.

(** ** A chain, a pool, states, filters and an executive *)

Record SampleBlock := mkSampleBlock {
  sb_info : BlockInfo;
  sb_txs : list (list Byte.byte);
  sb_receipts : list TransactionReceipt
}.

(** The blocks known to the store, canonical or not, and the head. *)
Record SampleChain := mkSampleChain {
  sc_blocks : gmap Z SampleBlock;
  sc_head : Z
}.

(** A raw transaction is two bytes: its gas price and a serial number. *)
Definition sample_decode (t : list Byte.byte) : Transaction :=
  {| gasPrice := match t with b :: _ => byte_val b | [] => 0 end;
     tx_sha3 := 1000 + be_value t |}.

Definition sample_info (bc : SampleChain) (h : Z) : BlockInfo :=
  match sc_blocks bc !! h with
  | Some b => sb_info b
  | None => mkBlockInfo 0 0 0 0 0 0
  end.

Definition sample_txs (bc : SampleChain) (h : Z) : list (list Byte.byte) :=
  match sc_blocks bc !! h with
  | Some b => sb_txs b
  | None => []
  end.

(** The queue holds the reorganisations that the next calls of [sync] will
    report: [(fresh, dead, new head)]. *)
#[local] Instance sample_chain : ChainStore :=
  {| BlockChain := SampleChain;
     BlockQueue := list (list Z * list Z * Z);
     OverlayDB := unit;
     EmptyTrie := 86;
     currentHash := sc_head;
     bc_number := λ bc, bi_number (sample_info bc (sc_head bc));
     info := sample_info;
     receipts := λ bc h, match sc_blocks bc !! h with
                         | Some b => sb_receipts b
                         | None => []
                         end;
     transactions := sample_txs;
     transactionHashes := λ bc h, (λ t, tx_sha3 (sample_decode t)) <$> sample_txs bc h;
     Transaction_decode := sample_decode;
     transaction := λ bc h i, match sample_txs bc h !! i with
                              | Some t => sample_decode t
                              | None => mkTransaction 0 0
                              end;
     attemptImport := λ bc _ db, (([], 0), bc, db);
     bc_sync := λ bc bq db _,
       match bq with
       | [] => (([], [], false), bc, [], db)
       | (fresh, dead, head) :: rest =>
           ((fresh, dead, false), {| sc_blocks := sc_blocks bc; sc_head := head |}, rest, db)
       end;
     garbageCollect := λ bc, bc |}.

(** The pool: raw transactions by hash. *)
#[local] Instance sample_pool : TxPool :=
  {| TransactionQueue := gmap Z (list Byte.byte);
     tq_import := λ q t, <[tx_sha3 (sample_decode t) := t]> q;
     tq_drop := λ q h, delete h q;
     tq_clear := λ _, ∅ |}.

Record SampleState := mkSampleState {
  ss_head : Z;
  ss_address : Z;
  ss_balances : gmap Z Z;
  ss_pending : list Transaction
}.

Definition ss_balance (s : SampleState) (a : Z) : Z := default 0 (ss_balances s !! a).

(** Every queued transaction applies, in ascending order of hash, uses
    21000 gas and logs one entry whose address is its gas price. *)
Definition sample_apply (t : list Byte.byte) : TransactionReceipt :=
  {| gasUsed := 21000; tr_log := [mkLogEntry (gasPrice (sample_decode t)) [] []] |}.

#[local] Instance sample_state : StateModel :=
  {| State := SampleState;
     st_sync := λ s bc,
       if ss_head s =? sc_head bc then (false, s)
       else (true, {| ss_head := sc_head bc; ss_address := ss_address s;
                      ss_balances := ss_balances s; ss_pending := [] |});
     st_sync_queue := λ s bc q gp,
       let txs := (map_to_list q).*2 in
       (sample_apply <$> txs,
        {| ss_head := ss_head s; ss_address := ss_address s;
           ss_balances := ss_balances s;
           ss_pending := ss_pending s ++ (sample_decode <$> txs) |},
        ∅);
     pending := ss_pending;
     address := ss_address;
     addBalance := λ s a v,
       Some {| ss_head := ss_head s; ss_address := ss_address s;
               ss_balances := <[a := u256 (ss_balance s a + v)]> (ss_balances s);
               ss_pending := ss_pending s |};
     rootHash := λ s, map_fold (λ a b acc, acc + a * b) (ss_head s) (ss_balances s) |}.

Record SampleFilter := mkSampleFilter {
  sf_from : Z;
  sf_to : Z;
  sf_address : Z
}.

#[local] Instance sample_filters : LogFilterModel :=
  {| LogFilter := SampleFilter;
     SpecialLogEntry := mkLogEntry 0 [] [];
     envelops := λ f _ n, (sf_from f <=? n) && (n <=? sf_to f);
     matches_bloom := λ _ _, true;
     matches := λ f r, List.filter (λ l, le_address l =? sf_address f) (tr_log r) |}.

(** The executive moves [value] from the sender to the receiver; it throws
    when the gas is below 21000 or the sender cannot pay [value + gas *
    gasPrice]. The result is the gas used. *)
#[local] Instance sample_executive : ExecutiveModel :=
  {| Executive := SampleState * Z;
     ExecutionResult := Z;
     ExecutionResult_empty := 0;
     Executive_new := λ s, Some (s, 0);
     exec_call := λ e receive _ sender value price _ gas _,
       if (gas <? 21000) || (ss_balance e.1 sender <? value + gas * price) then None
       else Some (true,
                  ({| ss_head := ss_head e.1; ss_address := ss_address e.1;
                      ss_balances :=
                        <[receive := ss_balance e.1 receive + value]>
                          (<[sender := ss_balance e.1 sender - value - 21000 * price]>
                             (ss_balances e.1));
                      ss_pending := ss_pending e.1 |}, 21000));
     exec_go := λ e, Some e;
     executionResult := λ e, Some e.2 |}.

(** ** Blocks and clients *)

Definition T1 : list Byte.byte := [byte_of 10; byte_of 1].
Definition T2 : list Byte.byte := [byte_of 20; byte_of 2].
Definition T3 : list Byte.byte := [byte_of 30; byte_of 3].

Definition paid (t : list Byte.byte) : TransactionReceipt := sample_apply t.

(** Genesis [1]; block [2] on it with [T1] and [T2]; the competing block
    [3] on genesis with [T2] alone. *)
Definition genesis : SampleBlock :=
  mkSampleBlock (mkBlockInfo 1 0 3141592 86 0 0) [] [].

Definition block2 : SampleBlock :=
  mkSampleBlock (mkBlockInfo 2 1 3141592 500 1 0) [T1; T2] [paid T1; paid T2].

Definition block3 : SampleBlock :=
  mkSampleBlock (mkBlockInfo 3 1 3141592 501 1 0) [T2] [paid T2].

Definition chain_at_2 : BlockChain :=
  {| sc_blocks := {[ 1 := genesis; 2 := block2; 3 := block3 ]}; sc_head := 2 |}.

Definition state_at (head : Z) (balances : gmap Z Z) : State :=
  {| ss_head := head; ss_address := 0; ss_balances := balances; ss_pending := [] |}.

Definition sample_client (bq : BlockQueue) (tq : TransactionQueue) (post : State)
    (miners : list LocalMiner) (filters : gmap Z InstalledFilter)
    (watches : gmap Z ClientWatch) (lastGC : Z) : Client :=
  mkClient chain_at_2 tq bq TrivialGasPricer tt (state_at 2 ∅) post
    (Some (mkEthereumHost false false)) miners (mkRemoteMiner false [])
    filters watches lastGC.

(** ** The gas pricer *)

(** Genesis [1]; block [5] on it with [T1] (gas price 10); the head [6] on
    block [5] with [T2] (gas price 20); each transaction used 21000 gas. *)
Definition gas_chain : BlockChain :=
  {| sc_blocks :=
       {[ 1 := genesis;
          5 := mkSampleBlock (mkBlockInfo 5 1 3141592 500 1 0) [T1] [paid T1];
          6 := mkSampleBlock (mkBlockInfo 6 5 3141592 501 2 0) [T2] [paid T2] ]};
     sc_head := 6 |}.

Definition fresh_pricer : BasicGasPricer :=
  {| m_octiles := replicate 9 0; m_gasPerBlock := 3141592 |}.

(** The distribution sampled from [gas_chain]: prices 10 and 20, each with
    21000 gas used, 42000 in total. *)
Example sampled_distribution :
  update_walk 1000 gas_chain (currentHash gas_chain) ([], 0)
  = Some ([(10, 21000); (20, 21000)], 42000).
Proof. vm_compute. reflexivity. Qed.

(** C5 on [gas_chain]: [update] assigns the octiles 0 to 3 and 8 and leaves
    the octiles 4 to 7 with the values they had, whatever these were; from a
    fresh pricer the result is not ascending, and the octiles 5, 6 and 7
    differ from the price (20) at which the cumulated gas reaches
    [k * total / 8]. *)
Lemma update_leaves_octiles_4_to_7 :
  (∀ o0 o1 o2 o3 o4 o5 o6 o7 o8 g,
     update gas_chain (mkBasicGasPricer [o0; o1; o2; o3; o4; o5; o6; o7; o8] g)
     = Some (mkBasicGasPricer [10; 10; 10; 10; o4; o5; o6; o7; 20] 3141592))
  ∧ update gas_chain fresh_pricer
    = Some (mkBasicGasPricer [10; 10; 10; 10; 0; 0; 0; 0; 20] 3141592)
  ∧ ascending [10; 10; 10; 10; 0; 0; 0; 0; 20] = false
  ∧ octile_spec [(10, 21000); (20, 21000)] 42000 5 = Some 20
  ∧ octile_spec [(10, 21000); (20, 21000)] 42000 6 = Some 20
  ∧ octile_spec [(10, 21000); (20, 21000)] 42000 7 = Some 20.
Proof.
  split; [intros; vm_compute; reflexivity|].
  repeat split; vm_compute; reflexivity.
Qed.

(** A single price: every octile is that price. *)
Example update_single_price :
  update {| sc_blocks := {[ 1 := genesis;
                            5 := mkSampleBlock (mkBlockInfo 5 1 3141592 500 1 0) [T1] [paid T1] ]};
            sc_head := 5 |} fresh_pricer
  = Some (mkBasicGasPricer (replicate 9 10) 3141592).
Proof. vm_compute. reflexivity. Qed.

(** ** hashrate *)

Definition miner (i h t : Z) : LocalMiner :=
  mkLocalMiner i (mkMineProgress h t) false [] false.

Definition two_miners : Client :=
  sample_client [] ∅ (state_at 2 ∅) [miner 0 10000 2; miner 1 10000 5] ∅ ∅ 0.

(** Quotients first: 10000/2 + 10000/5 = 7000, not 20000/7. *)
Lemma hashrate_sum_of_quotients_witness : hashrate two_miners = Some 7.
Proof.
  change (Some 7) with (Some (rate_sum (m_localMiners two_miners) / 1000)).
  apply HashrateFacts.hashrate_sum_of_quotients.
  - repeat constructor; simpl; lia.
  - vm_compute. reflexivity.
Defined.

Example hashrate_fresh_miner :
  hashrate (sample_client [] ∅ (state_at 2 ∅) (fresh_miners 1) ∅ ∅ 0) = None.
Proof. reflexivity. Qed.

(** ** call *)

(** Account 7 holds 100; account 8 holds nothing. *)
Definition call_client : Client :=
  sample_client [] ∅ (state_at 2 {[ 7 := 100 ]}) [] ∅ ∅ 0.

(** A call from 8 to 7 with value 50 succeeds on the credited copy, and the
    pending state still gives 8 no balance. *)
Example call_isolation :
  call call_client 7 [] 21000 50 1 8 = (21000, call_client)
  ∧ ss_balance (m_postMine (call call_client 7 [] 21000 50 1 8).2) 8 = 0.
Proof. split; reflexivity. Qed.

(** The run behind that call: account 8 can pay only on the credited
    copy. *)
Lemma call_simulates_on_credited_copy_witness :
  (call call_client 7 [] 21000 50 1 8).1 = 21000.
Proof.
  apply (proj1 (CallFacts.call_simulates_on_credited_copy call_client 7 [] 21000 50 1 8)).
  eapply CallFacts.call_runs; reflexivity.
Defined.

(** With no gas the executive throws and the result is the empty one. *)
Lemma call_failure_gives_empty_result_witness :
  (call call_client 7 [] 0 50 1 8).1 = ExecutionResult_empty.
Proof.
  apply CallFacts.call_failure_gives_empty_result.
  eapply CallFacts.throws_call; reflexivity.
Defined.

(** ** A reorganisation *)

(** The head is block 2 ([T1], [T2]); the queue brings the heavier branch
    with block 3 ([T2] alone): block 3 is fresh, block 2 is dead. *)
Definition reorg_client : Client :=
  sample_client [([3], [2], 3)] ∅ (state_at 2 ∅) [] ∅ ∅ 0.

Definition hash_of (t : list Byte.byte) : Z := tx_sha3 (sample_decode t).

(** After the chain phase the pool holds [T1], resurrected, and not [T2]. *)
Example reorg_resurrects_T1_drops_T2 :
  m_tq (doWork_chain reorg_client ∅).1.1 = {[ hash_of T1 := T1 ]}
  ∧ currentHash (m_bc (doWork_chain reorg_client ∅).1.1) = 3.
Proof. split; reflexivity. Qed.


(** ** A pending transaction and a filter *)

(** [T3] waits in the pool; filter 77 selects the logs of address 30 in the
    blocks 0 to 100. The head has number 1. *)
Definition filter_77 : InstalledFilter := mkInstalledFilter (mkSampleFilter 0 100 30) 1 [].

Definition pending_client : Client :=
  sample_client [] {[ hash_of T3 := T3 ]} (state_at 2 ∅) [] {[ 77 := filter_77 ]} ∅ 0.

Lemma doWork_pending_accumulates_matching_logs_witness :
  ∃ out, doWork_pending pending_client ∅ false = Some out
    ∧ changes <$> m_filters out.1.1 !! 77
      = Some [mkLocalisedLogEntry (mkLogEntry 30 [] []) 2 (hash_of T3)].
Proof.
  destruct (WorkLoopFacts.doWork_pending_accumulates_matching_logs pending_client ∅ false)
    as (out & Hrun & Hf).
  - apply Nat.leb_le. reflexivity.
  - exists out. split; [exact Hrun|].
    destruct (Hf 77 filter_77 eq_refl) as (f' & Hk & _ & Hch).
    rewrite Hk. simpl. rewrite Hch. reflexivity.
Defined.

(** ** Idle watches *)

(** Watch 0 was polled at 100 s, watch 2 at 110 s, watch 1 never; the last
    collection was at 50 s and the clock reads 125 s. *)
Definition gc_client : Client :=
  sample_client [] ∅ (state_at 2 ∅) [] ∅
    {[ 0 := mkClientWatch 0 [] (seconds 100);
       1 := mkClientWatch 1 [] time_point_max;
       2 := mkClientWatch 0 [] (seconds 110) ]}
    (seconds 50).

Definition clock_125 : Clock :=
  {| now_check := seconds 125; now_watch := λ _, seconds 125; now_done := seconds 125 |}.

Lemma doWork_collects_watches_idle_20s_every_5s_witness :
  ∃ c' rep, doWork clock_125 gc_client = Some (c', rep)
    ∧ wr_collected rep = true
    ∧ m_lastGarbageCollection c' = seconds 125
    ∧ m_watches c' !! 0 = None
    ∧ m_watches c' !! 1 ≠ None
    ∧ m_watches c' !! 2 ≠ None.
Proof.
  assert (is_Some (doWork clock_125 gc_client)) as [[c' rep] Hrun]
    by (apply is_Some_alt; vm_compute; exact I).
  exists c', rep. split; [exact Hrun|].
  assert (- 2 ^ 63 ≤ now_check clock_125 - m_lastGarbageCollection gc_client < 2 ^ 63)
    as Hfit by (split; by vm_compute).
  assert (map_Forall (λ key w, lastPoll w ≠ time_point_max →
                        - 2 ^ 63 ≤ now_watch clock_125 key - lastPoll w < 2 ^ 63)
            (m_watches gc_client)) as Hfits.
  { intros key w Hw _.
    assert (lastPoll w = seconds 100 ∨ lastPoll w = time_point_max
            ∨ lastPoll w = seconds 110) as Hlp.
    { change (m_watches gc_client)
        with (<[0 := mkClientWatch 0 [] (seconds 100)]>
                (<[1 := mkClientWatch 1 [] time_point_max]>
                   ({[2 := mkClientWatch 0 [] (seconds 110)]} : gmap Z ClientWatch))) in Hw.
      apply lookup_insert_Some in Hw as [[_ <-]|[_ Hw]]; [by left|].
      apply lookup_insert_Some in Hw as [[_ <-]|[_ Hw]]; [by right; left|].
      apply lookup_singleton_Some in Hw as [_ <-]. by right; right. }
    destruct Hlp as [-> | [-> | ->]]; split; by vm_compute. }
  destruct (WorkLoopFacts.doWork_collects_watches_idle_20s_every_5s _ _ _ _ Hrun Hfit Hfits)
    as (Hiff & _ & Hyes).
  assert (wr_collected rep = true) as Hran by (apply Hiff; reflexivity).
  destruct (Hyes Hran) as (Hstamp & Hw & _).
  split; [exact Hran|]. split; [exact Hstamp|]. split; [|split].
  - apply (Hw 0 (mkClientWatch 0 [] (seconds 100)) eq_refl). split; [discriminate|reflexivity].
  - intros Hgone.
    apply (Hw 1 (mkClientWatch 1 [] time_point_max) eq_refl) in Hgone as [Hset _].
    by apply Hset.
  - intros Hgone.
    apply (Hw 2 (mkClientWatch 0 [] (seconds 110)) eq_refl) in Hgone as [_ Hidle].
    discriminate Hidle.
Defined.

(** ** A second pending transaction *)

(** [T1] is in the pool, filter 77 selects the logs of address 30, those of
    [T3], and watch 5 is bound to it. *)
Definition first_pass_client : Client :=
  sample_client [] {[ hash_of T1 := T1 ]} (state_at 2 ∅) [] {[ 77 := filter_77 ]}
    {[ 5 := mkClientWatch 77 [] time_point_max ]} 0.

(** A pass, the arrival of [T3] in the pool, a second pass. *)
Definition first_pass : option (Client * WorkReport) := doWork clock_125 first_pass_client.

Definition second_pass : option (Client * WorkReport) :=
  r ← first_pass; doWork clock_125 (set_m_tq {[ hash_of T3 := T3 ]} r.1).

(** C4 fails in the code. The first pass applies [T1]; the second applies
    [T3], for which [m_postMine.sync] returns one new receipt while
    [pending()] is [T1; T3]: the entry made from the log of [T3] carries the
    hash of [pending()[0]], which is that of [T1], not of [T3], and it is
    what watch 5 receives. *)
Theorem doWork_attaches_hash_of_older_pending_transaction :
  (pending <$> (m_postMine <$> (fst <$> first_pass))) = Some [sample_decode T1]
  ∧ (pending <$> (m_postMine <$> (fst <$> second_pass)))
    = Some [sample_decode T1; sample_decode T3]
  ∧ (r ← second_pass; w_changes <$> m_watches r.1 !! 5)
    = Some [mkLocalisedLogEntry (mkLogEntry 30 [] []) 2 (hash_of T1)]
  ∧ tr_log (paid T3) = [mkLogEntry 30 [] []]
  ∧ hash_of T1 = 3561
  ∧ hash_of T3 = 8683.
Proof. repeat split; vm_compute; reflexivity. Qed.

End Sample.

(** * Further properties *)

(** ** The basic gas pricer *)

Module GasPriceFacts.
Import GasPrice.

Section Facts.
Context `{ChainStore}.

(** The raw transactions that the walk of [update] samples: those of the
    blocks with a non-empty transactions root, from [p] towards the genesis,
    [left] blocks at most. *)
Fixpoint sampled (left : nat) (bc : BlockChain) (p : h256) : list bytes :=
  match left with
  | O => []
  | S left' =>
      if p =? 0 then []
      else
        let bi := info bc p in
        (if negb (transactionsRoot bi =? EmptyTrie) then transactions bc p else [])
        ++ sampled left' bc (parentHash bi)
  end.

Definition price_of (t : bytes) : Z := gasPrice (Transaction_decode t).

(** Prices strictly ascending: the order of the keys of the map. *)
Definition by_price (a b : Z * Z) : Prop := a.1 < b.1.

Lemma dist_add_Forall (Q : Z → Prop) price gu dist :
  Q price → Forall (λ pw, Q pw.1) dist → Forall (λ pw, Q pw.1) (dist_add price gu dist).
Proof.
  intros Hp. induction 1 as [|[p w] rest Hq Hrest IH]; simpl.
  - by repeat constructor.
  - destruct (Z.ltb_spec price p); [by repeat constructor|].
    destruct (Z.eqb_spec price p); by repeat constructor.
Qed.

Lemma dist_add_sorted price gu dist :
  StronglySorted by_price dist → StronglySorted by_price (dist_add price gu dist).
Proof.
  induction 1 as [|[p w] rest Hsorted IH Hlow]; simpl.
  - by repeat constructor.
  - destruct (Z.ltb_spec price p) as [Hlt|Hge].
    + constructor; [by constructor|]. constructor; [done|].
      eapply Forall_impl; [exact Hlow|]. unfold by_price. simpl. intros; lia.
    + destruct (Z.eqb_spec price p) as [->|Hne].
      * by constructor.
      * constructor; [done|].
        apply (dist_add_Forall (λ x, p < x)); [lia|done].
Qed.

Lemma dist_add_prices price gu dist x :
  x ∈ (dist_add price gu dist).*1 ↔ x = price ∨ x ∈ dist.*1.
Proof.
  induction dist as [|[p w] rest IH]; simpl.
  - rewrite list_elem_of_singleton. split; [by left|]. intros [?|Hin]; [done|].
    by apply elem_of_nil in Hin.
  - destruct (Z.ltb_spec price p).
    + simpl. rewrite !elem_of_cons. tauto.
    + destruct (Z.eqb_spec price p) as [->|Hne]; simpl.
      * rewrite !elem_of_cons. tauto.
      * rewrite !elem_of_cons, IH. tauto.
Qed.

Lemma dist_add_not_nil price gu dist : dist_add price gu dist ≠ [].
Proof.
  destruct dist as [|[p w] rest]; simpl; [done|].
  destruct (price <? p); [done|]. by destruct (price =? p).
Qed.

Lemma u32_range x : 0 ≤ u32 x < 2 ^ 32.
Proof. unfold u32. apply Z.mod_pos_bound. lia. Qed.

Lemma dist_add_range price gu dist :
  Forall (λ pw : Z * Z, 0 ≤ pw.2 < 2 ^ 32) dist →
  Forall (λ pw : Z * Z, 0 ≤ pw.2 < 2 ^ 32) (dist_add price gu dist).
Proof.
  induction 1 as [|[p w] rest Hw Hrest IH]; simpl.
  - apply Forall_cons. split; [apply u32_range|constructor].
  - destruct (price <? p).
    + apply Forall_cons. split; [apply u32_range|]. by apply Forall_cons.
    + destruct (price =? p); apply Forall_cons; split; try done. apply u32_range.
Qed.

(** What the walk keeps: prices ascending, gas counted only together with a
    price, weights and total within [unsigned]. *)
Definition well_formed (acc : list (Z * Z) * Z) : Prop :=
  StronglySorted by_price acc.1
  ∧ (acc.1 = [] → acc.2 = 0)
  ∧ Forall (λ pw : Z * Z, 0 ≤ pw.2 < 2 ^ 32) acc.1
  ∧ 0 ≤ acc.2 < 2 ^ 32.

Lemma update_block_spec txs : ∀ i brs acc acc',
  update_block txs i brs acc = Some acc' →
  (well_formed acc → well_formed acc')
  ∧ ∀ x, x ∈ acc'.1.*1 ↔ x ∈ acc.1.*1 ∨ x ∈ price_of <$> txs.
Proof.
  induction txs as [|t txs IH]; intros i brs acc acc' Hrun; simpl in *.
  - injection Hrun as <-. split; [done|]. intros x. rewrite elem_of_nil. tauto.
  - destruct (brs !! i) as [r|]; simpl in *; [|done].
    apply IH in Hrun as [Hwf Hprices]. simpl in *. split.
    + intros (Hsorted & _ & Hrange & _). apply Hwf. split; [|split; [|split]]; simpl.
      * by apply dist_add_sorted.
      * intros Hnil. by apply dist_add_not_nil in Hnil.
      * by apply dist_add_range.
      * apply u32_range.
    + intros x. rewrite Hprices, dist_add_prices, elem_of_cons.
      unfold price_of. tauto.
Qed.

Lemma update_walk_spec left : ∀ bc p acc acc',
  update_walk left bc p acc = Some acc' →
  (well_formed acc → well_formed acc')
  ∧ ∀ x, x ∈ acc'.1.*1 ↔ x ∈ acc.1.*1 ∨ x ∈ price_of <$> sampled left bc p.
Proof.
  induction left as [|left IH]; intros bc p acc acc' Hrun; simpl in *.
  - injection Hrun as <-. split; [done|]. intros x. rewrite elem_of_nil. tauto.
  - destruct (p =? 0).
    { injection Hrun as <-. split; [done|]. intros x. rewrite elem_of_nil. tauto. }
    destruct (negb (transactionsRoot (info bc p) =? EmptyTrie)); simpl in *.
    + destruct (update_block _ _ _ _) as [acc1|] eqn:Hblock; simpl in *; [|done].
      apply update_block_spec in Hblock as [Hwf1 Hp1].
      apply IH in Hrun as [Hwf2 Hp2]. split; [tauto|].
      intros x. rewrite Hp2, Hp1, fmap_app, elem_of_app. tauto.
    + apply IH in Hrun as [Hwf2 Hp2]. split; [done|].
      intros x. rewrite Hp2. tauto.
Qed.

Lemma sorted_head_least dist lo :
  StronglySorted by_price dist → head dist = Some lo → ∀ x, x ∈ dist.*1 → lo.1 ≤ x.
Proof.
  destruct 1 as [|a rest _ Hlow]; simpl; [done|]. intros [= <-] x.
  rewrite elem_of_cons. intros [->|Hin]; [lia|].
  apply list_elem_of_fmap in Hin as ([p w] & -> & Hin).
  rewrite Forall_forall in Hlow. specialize (Hlow _ Hin). unfold by_price in Hlow.
  simpl in *. lia.
Qed.

Lemma sorted_last_greatest dist hi :
  StronglySorted by_price dist → last dist = Some hi → ∀ x, x ∈ dist.*1 → x ≤ hi.1.
Proof.
  induction 1 as [|a rest Hsorted IH Hlow]; [done|]. intros Hlast x.
  destruct rest as [|b rest'].
  - simpl in *. injection Hlast as <-. rewrite list_elem_of_singleton. intros ->. lia.
  - rewrite last_cons_cons in Hlast. rewrite fmap_cons, elem_of_cons. intros [->|Hin].
    + assert (Hhi : hi ∈ b :: rest') by (by apply last_Some_elem_of).
      rewrite Forall_forall in Hlow. specialize (Hlow _ Hhi). unfold by_price in Hlow. lia.
    + by apply IH.
Qed.

(** The inner loop writes slots [9 - room] and above only. *)
Lemma octile_fill_frame room : ∀ t total price w oct room' oct',
  (room ≤ 8)%nat →
  octile_fill room t total price w oct = Some (room', oct') →
  (room' ≤ room)%nat ∧ length oct' = length oct ∧ oct' !! 0%nat = oct !! 0%nat.
Proof.
  induction room as [|room IH]; intros t total price w oct room' oct' Hroom Hrun.
  - simpl in Hrun. destruct (_ && _); [done|]. by injection Hrun as <- <-.
  - cbn [octile_fill] in Hrun. destruct (_ && _).
    + apply IH in Hrun as (Hle & Hlen & Hzero); [|lia].
      rewrite length_insert in Hlen. split; [lia|]. split; [done|].
      rewrite Hzero. apply list_lookup_insert_ne. lia.
    + by injection Hrun as <- <-.
Qed.

Lemma octile_scan_frame dist : ∀ room t total oct oct',
  (room ≤ 8)%nat →
  octile_scan dist room t total oct = Some oct' →
  length oct' = length oct ∧ oct' !! 0%nat = oct !! 0%nat.
Proof.
  induction dist as [|[price w] rest IH]; intros room t total oct oct' Hroom Hrun;
    simpl in Hrun.
  - by injection Hrun as <-.
  - destruct (octile_fill room t total price w oct) as [[room1 oct1]|] eqn:Hfill;
      simpl in Hrun; [|done].
    apply octile_fill_frame in Hfill as (Hle & Hlen & Hzero); [|done].
    destruct (7 <? 9 - Z.of_nat room1).
    + injection Hrun as <-. done.
    + apply IH in Hrun as [Hlen' Hzero']; [|lia]. split; congruence.
Qed.

Lemma well_formed_start : well_formed ([], 0).
Proof. repeat split; try done; try constructor. Qed.

Lemma sampled_nil_walk left : ∀ bc p acc,
  sampled left bc p = [] → update_walk left bc p acc = Some acc.
Proof.
  induction left as [|left IH]; intros bc p acc Hnone; simpl in *; [done|].
  destruct (p =? 0); [done|].
  apply app_eq_nil in Hnone as [Hhere Hrest].
  destruct (negb (transactionsRoot (info bc p) =? EmptyTrie)); simpl.
  - rewrite Hhere. simpl. by apply IH.
  - by apply IH.
Qed.

#[local] Arguments update_walk : simpl never.
#[local] Arguments sampled : simpl never.

(** [update] after its walk, when gas was sampled. *)
Lemma update_after_walk bc gp dist total lo hi :
  update_walk 1000 bc (currentHash bc) ([], 0) = Some (dist, total) →
  0 < total → head dist = Some lo → last dist = Some hi →
  update bc gp
  = (oct ← octile_scan dist 8 0 total (<[0%nat := lo.1]> (m_octiles gp));
     Some {| m_octiles := <[8%nat := hi.1]> oct;
             m_gasPerBlock := gasLimit (info bc (currentHash bc)) |}).
Proof.
  intros Hwalk Hpos Hlo Hhi. unfold update. rewrite Hwalk. simpl.
  destruct (Z.ltb_spec 0 total); [|lia]. rewrite Hlo. simpl.
  destruct (octile_scan _ _ _ _ _); simpl; [|done]. by rewrite Hhi.
Qed.

Lemma walk_ends bc dist total :
  update_walk 1000 bc (currentHash bc) ([], 0) = Some (dist, total) →
  0 < total →
  (∃ lo hi, head dist = Some lo ∧ last dist = Some hi)
  ∧ Forall (λ pw : Z * Z, 0 ≤ pw.2 < 2 ^ 32) dist
  ∧ 0 ≤ total < 2 ^ 32.
Proof.
  intros Hwalk Hpos. apply update_walk_spec in Hwalk as [Hwf _].
  destruct (Hwf well_formed_start) as (_ & Hnil & Hrange & Htotal).
  cbn [fst snd] in *. split; [|done].
  destruct dist as [|lo rest]; [specialize (Hnil eq_refl); lia|].
  destruct (last (lo :: rest)) as [hi|] eqn:Hhi; [by eauto|].
  by apply last_None in Hhi.
Qed.

(** X1. When [update] returns after sampling a positive amount of gas, the
    octile 0 is the least and the octile 8 the greatest gas price among the
    sampled transactions, and [m_gasPerBlock] is the gas limit of the head. *)
Theorem update_extreme_octiles (bc : BlockChain) (gp gp' : BasicGasPricer)
    (dist : list (Z * Z)) (total : Z) :
  length (m_octiles gp) = 9%nat →
  update_walk 1000 bc (currentHash bc) ([], 0) = Some (dist, total) →
  0 < total →
  update bc gp = Some gp' →
  ∃ lo hi,
    m_octiles gp' !! 0%nat = Some lo ∧ m_octiles gp' !! 8%nat = Some hi
    ∧ lo ∈ price_of <$> sampled 1000 bc (currentHash bc)
    ∧ hi ∈ price_of <$> sampled 1000 bc (currentHash bc)
    ∧ (∀ t, t ∈ sampled 1000 bc (currentHash bc) → lo ≤ price_of t ≤ hi)
    ∧ m_gasPerBlock gp' = gasLimit (info bc (currentHash bc)).
Proof.
  intros Hlen Hwalk Hpos.
  destruct (walk_ends _ _ _ Hwalk Hpos) as ((lo & hi & Hlo & Hhi) & _ & _).
  rewrite (update_after_walk _ _ _ _ _ _ Hwalk Hpos Hlo Hhi).
  destruct (octile_scan _ _ _ _ _) as [oct|] eqn:Hscan; simpl; [|done].
  intros [= <-]. cbn [m_octiles m_gasPerBlock].
  apply octile_scan_frame in Hscan as [Hlen' Hzero]; [|lia].
  rewrite length_insert in Hlen'.
  apply update_walk_spec in Hwalk as [Hwf Hprices].
  destruct (Hwf well_formed_start) as (Hsorted & _). cbn [fst snd] in *.
  assert (∀ x, x ∈ dist.*1 ↔ x ∈ price_of <$> sampled 1000 bc (currentHash bc)) as Hp.
  { intros x. rewrite Hprices, fmap_nil, elem_of_nil. tauto. }
  exists lo.1, hi.1. split; [|split; [|split; [|split; [|split]]]]; try done.
  - rewrite list_lookup_insert_ne by lia. rewrite Hzero.
    apply list_lookup_insert_eq. lia.
  - apply list_lookup_insert_eq. lia.
  - apply Hp. apply list_elem_of_fmap_2.
    destruct dist; [done|]. injection Hlo as <-. left.
  - apply Hp. apply list_elem_of_fmap_2. by apply last_Some_elem_of.
  - intros t Ht. assert (price_of t ∈ dist.*1) as Hin
      by (apply Hp; by apply list_elem_of_fmap_2).
    split; [by eapply sorted_head_least|by eapply sorted_last_greatest].
Qed.

(** X2. When the sampled blocks carry no transaction, [update] leaves the
    nine octiles as they were and only records the gas limit of the head. *)
Theorem update_without_transactions (bc : BlockChain) (gp : BasicGasPricer) :
  sampled 1000 bc (currentHash bc) = [] →
  update bc gp
  = Some {| m_octiles := m_octiles gp;
            m_gasPerBlock := gasLimit (info bc (currentHash bc)) |}.
Proof.
  intros Hnone. unfold update. by rewrite (sampled_nil_walk _ _ _ _ Hnone).
Qed.

Lemma octile_scan_light dist : ∀ total oct,
  0 ≤ total < 2 ^ 32 →
  Forall (λ pw : Z * Z, 0 ≤ pw.2 ≤ total / 8) dist →
  octile_scan dist 8 0 total oct = Some oct.
Proof.
  induction dist as [|[price w] rest IH]; intros total oct Htotal Hlight; [done|].
  apply Forall_cons in Hlight as [Hw Hrest]. simpl in Hw.
  assert (total / 8 < 2 ^ 32) by (apply Z.div_lt_upper_bound; lia).
  cbn [octile_scan octile_fill].
  replace (9 - Z.of_nat 8) with 1 by lia. rewrite Z.mul_1_r, Z.add_0_l.
  rewrite (u32_small total) by done. rewrite (u32_small w) by lia.
  destruct (Z.ltb_spec (total / 8) w); [lia|]. rewrite andb_false_r. simpl.
  by apply IH.
Qed.

(** X3. The running sum [t] stays at zero, so a price is written to an
    intermediate octile only if its own gas exceeds the bound: when no
    sampled price carries more than an eighth of the total gas, [update]
    assigns the octiles 0 and 8 and none of the octiles 1 to 7. *)
Theorem update_assigns_no_octile_to_light_prices (bc : BlockChain)
    (gp : BasicGasPricer) (dist : list (Z * Z)) (total : Z) :
  update_walk 1000 bc (currentHash bc) ([], 0) = Some (dist, total) →
  0 < total →
  Forall (λ pw : Z * Z, pw.2 ≤ total / 8) dist →
  ∃ lo hi, head dist = Some lo ∧ last dist = Some hi
    ∧ update bc gp
      = Some {| m_octiles := <[8%nat := hi.1]> (<[0%nat := lo.1]> (m_octiles gp));
                m_gasPerBlock := gasLimit (info bc (currentHash bc)) |}.
Proof.
  intros Hwalk Hpos Hlight.
  destruct (walk_ends _ _ _ Hwalk Hpos) as ((lo & hi & Hlo & Hhi) & Hrange & Htotal).
  exists lo, hi. split; [done|]. split; [done|].
  rewrite (update_after_walk _ _ _ _ _ _ Hwalk Hpos Hlo Hhi).
  rewrite octile_scan_light; [done|done|].
  rewrite Forall_forall in *. intros pw Hin.
  specialize (Hlight _ Hin). specialize (Hrange _ Hin). lia.
Qed.

Lemma octile_fill_heavy room : ∀ total price w oct,
  2 ^ 29 ≤ u32 w → octile_fill room 0 total price w oct = None.
Proof.
  induction room as [|room IH]; intros total price w oct Hheavy; cbn [octile_fill].
  - set (q := 9 - Z.of_nat 0). pose proof (u32_range (total * q)) as Hb.
    rewrite Z.add_0_l.
    destruct (Z.leb_spec 0 (u32 (total * q) / 8)) as [|Hneg];
      [|exfalso; revert Hneg; apply Z.le_ngt, Z.div_pos; lia].
    destruct (Z.ltb_spec (u32 (total * q) / 8) (u32 w)) as [|Hge]; [done|].
    exfalso. assert (u32 (total * q) / 8 < 2 ^ 29) by (apply Z.div_lt_upper_bound; lia).
    lia.
  - set (q := 9 - Z.of_nat (S room)). pose proof (u32_range (total * q)) as Hb.
    rewrite Z.add_0_l.
    destruct (Z.leb_spec 0 (u32 (total * q) / 8)) as [|Hneg];
      [|exfalso; revert Hneg; apply Z.le_ngt, Z.div_pos; lia].
    destruct (Z.ltb_spec (u32 (total * q) / 8) (u32 w)) as [|Hge].
    + simpl. by apply IH.
    + exfalso.
      assert (u32 (total * q) / 8 < 2 ^ 29) by (apply Z.div_lt_upper_bound; lia).
      lia.
Qed.

(** X4. When the cheapest sampled price carries 2^29 gas or more, the inner
    loop of [update] never meets its exit test and writes past the ninth
    octile: [update] has no defined result. *)
Theorem update_overruns_octiles (bc : BlockChain) (gp : BasicGasPricer)
    (price w total : Z) (rest : list (Z * Z)) :
  update_walk 1000 bc (currentHash bc) ([], 0) = Some ((price, w) :: rest, total) →
  0 < total →
  2 ^ 29 ≤ w →
  update bc gp = None.
Proof.
  intros Hwalk Hpos Hheavy.
  destruct (walk_ends _ _ _ Hwalk Hpos) as ((lo & hi & Hlo & Hhi) & Hrange & _).
  rewrite (update_after_walk _ _ _ _ _ _ Hwalk Hpos Hlo Hhi).
  apply Forall_cons in Hrange as [Hw _]. cbn [snd] in Hw.
  cbn [octile_scan]. rewrite octile_fill_heavy; [done|]. rewrite u32_small; lia.
Qed.

Lemma octile_fill_safe room : ∀ total price w oct,
  (1 ≤ room ≤ 8)%nat → 0 < total → total * 8 < 2 ^ 32 → 0 ≤ w ≤ total →
  ∃ room' oct', octile_fill room 0 total price w oct = Some (room', oct')
    ∧ (1 ≤ room' ≤ 8)%nat.
Proof.
  induction room as [|room IH]; intros total price w oct Hroom Hpos Hfit Hw; [lia|].
  cbn [octile_fill]. set (q := 9 - Z.of_nat (S room)). rewrite Z.add_0_l.
  rewrite (u32_small w) by lia.
  destruct (_ && _) eqn:Hcond.
  - apply andb_true_iff in Hcond as [_ Hlt]. apply Z.ltb_lt in Hlt.
    destruct room as [|room].
    + exfalso. subst q. change (9 - Z.of_nat 1) with 8 in Hlt.
      rewrite u32_small in Hlt by lia. rewrite Z.div_mul in Hlt by lia. lia.
    + apply IH; (lia || done).
  - eauto.
Qed.

Lemma octile_scan_safe dist : ∀ room total oct,
  (1 ≤ room ≤ 8)%nat → 0 < total → total * 8 < 2 ^ 32 →
  Forall (λ pw : Z * Z, 0 ≤ pw.2 ≤ total) dist →
  is_Some (octile_scan dist room 0 total oct).
Proof.
  induction dist as [|[price w] rest IH]; intros room total oct Hroom Hpos Hfit Hall;
    simpl; [done|].
  apply Forall_cons in Hall as [Hw Hrest]. simpl in Hw.
  destruct (octile_fill_safe room total price w oct) as (room' & oct' & -> & Hroom');
    try done.
  simpl. destruct (7 <? 9 - Z.of_nat room'); [done|]. by apply IH.
Qed.

(** X5. [update] stays within the nine octiles, and so returns, whenever the
    transactions of the sampled blocks have their receipts, the sampled gas
    is positive and below 2^29, and no price carries more gas than the
    total (no [unsigned] wrap-around). *)
Theorem update_within_octiles (bc : BlockChain) (gp : BasicGasPricer)
    (dist : list (Z * Z)) (total : Z) :
  update_walk 1000 bc (currentHash bc) ([], 0) = Some (dist, total) →
  0 < total →
  total < 2 ^ 29 →
  Forall (λ pw : Z * Z, pw.2 ≤ total) dist →
  ∃ gp', update bc gp = Some gp'
    ∧ length (m_octiles gp') = length (m_octiles gp).
Proof.
  intros Hwalk Hpos Hfit Hall.
  destruct (walk_ends _ _ _ Hwalk Hpos) as ((lo & hi & Hlo & Hhi) & Hrange & _).
  rewrite (update_after_walk _ _ _ _ _ _ Hwalk Hpos Hlo Hhi).
  destruct (octile_scan_safe dist 8 total (<[0%nat := lo.1]> (m_octiles gp)))
    as [oct Hscan]; try (done || lia).
  { rewrite Forall_forall in *. intros pw Hin.
    specialize (Hall _ Hin). specialize (Hrange _ Hin). lia. }
  rewrite Hscan. simpl. eexists. split; [done|]. simpl.
  apply octile_scan_frame in Hscan as [Hlen _]; [|lia].
  by rewrite !length_insert in *.
Qed.

End Facts.

End GasPriceFacts.

(** ** Start-up: the action the stores are opened with *)

Module StartupFacts.
Import Version.

Section Facts.
Context `{Constants} `{RLPCodec} `{FileSystem}.

(** [max(m_vc.action(), _forceAction)], the second argument of [m_bc] and of
    [State::openDB] in both constructors of [Client]. *)
Definition openAction (fs : FS) (_dbPath : string) (_forceAction : WithExisting) :
    WithExisting :=
  WithExisting_max (m_action (VersionChecker_new fs _dbPath)) _forceAction.

(** X6. When the codec reads back the three constants from the list it
    writes and the data directory is there or can be made
    ([create_directory] returns), a check that follows [setOk] on the same
    path gives [Trust], whatever the first check gave. *)
Theorem check_after_setOk_is_Trust (fs : FS) (dbPath : string) :
  (let b := rlpList3 c_protocolVersion c_minorProtocolVersion c_databaseVersion in
   rlp_toUnsigned (rlp_at (rlp_of_bytes b) 0) = Some c_protocolVersion
   ∧ rlp_toUnsigned (rlp_at (rlp_of_bytes b) 1) = Some c_minorProtocolVersion
   ∧ rlp_toUnsigned (rlp_at (rlp_of_bytes b) 2) = Some c_databaseVersion) →
  is_Some (create_directory fs (m_path (VersionChecker_new fs dbPath))) →
  m_action (VersionChecker_new (setOk (VersionChecker_new fs dbPath) fs) dbPath) = Trust.
Proof.
  intros (HP & Hm & HD) [fs1 Hdir].
  destruct (decide (m_action (VersionChecker_new fs dbPath) = Trust)) as [Htrust|Hnot].
  - unfold setOk. rewrite Htrust. by rewrite decide_False by (intros Hne; by apply Hne).
  - rewrite VersionFacts.m_action_new, VersionFacts.m_path_new.
    unfold status_record, setOk. rewrite decide_True by done.
    rewrite Hdir. rewrite VersionFacts.m_path_new in *. simpl.
    unfold status_path. rewrite (contents_writeFile fs _ fs1 "status") by done.
    rewrite HP, Hm, HD.
    rewrite decide_True by done. by rewrite decide_True.
Qed.

(** X7. The stores are opened with [Trust] only if the caller forces nothing
    and the status record equals the constants; they are opened with [Kill]
    as soon as the caller asks for it or the check says so, in particular
    whenever no record can be read. *)
Theorem openAction_Trust_and_Kill (fs : FS) (dbPath : string) (force : WithExisting) :
  let vc := VersionChecker_new fs dbPath in
  (openAction fs dbPath force = Trust ↔
     force = Trust
     ∧ status_record fs (m_path vc)
       = Some (c_protocolVersion, c_minorProtocolVersion, c_databaseVersion))
  ∧ (openAction fs dbPath force = Kill ↔ force = Kill ∨ m_action vc = Kill)
  ∧ (status_record fs (m_path vc) = None → openAction fs dbPath force = Kill).
Proof.
  intros vc. unfold openAction. fold vc.
  assert (m_action vc = Trust ↔
          status_record fs (m_path vc)
          = Some (c_protocolVersion, c_minorProtocolVersion, c_databaseVersion)) as Htrust.
  { subst vc. rewrite VersionFacts.m_action_new.
    destruct (status_record fs _) as [[[P m] D]|]; [|done].
    repeat case_decide; split; try done; try (intros [= -> -> ->]; tauto).
    intros _. destruct_and!. by subst. }
  split; [|split].
  - rewrite <- Htrust. destruct (m_action vc), force; simpl; split; try done; tauto.
  - destruct (m_action vc), force; simpl; split; try done; try tauto;
      intros [?|?]; done.
  - intros Hnone. subst vc. rewrite VersionFacts.m_action_new, Hnone.
    by destruct force.
Qed.

End Facts.

End StartupFacts.

(** ** More of the client *)

Module ClientMore.
Import ClientModel.

Section Client.
Context `{ChainStore} `{TxPool} `{!StateModel} `{LogFilterModel} `{!ExecutiveModel}.

(** [void Client::clearPending()]: nothing happens when no transaction is
    pending; the commented-out loop of the source is left out. *)
Definition clearPending (c : Client) : Client :=
  if (length (pending (m_postMine c)) =? 0)%nat then c
  else
    let changeds : gset Z := {[ PendingChangedFilter ]} in
    let c1 := set_m_postMine (m_preMine c) (set_m_tq (tq_clear (m_tq c)) c) in
    noteChanged changeds (noteStateChange_all c1).

End Client.

Section History.
(** [MineInfo] and [MineInfo::combine] are declared outside [Client.cpp]. *)
Variable MineInfo : Type.
Variable combine : MineInfo → MineInfo → MineInfo.

(** [for (; ri != ret.end() && li != l.end(); ++ri, ++li) ri->combine( *li);] *)
Fixpoint combine_history (ret l : list MineInfo) : list MineInfo :=
  match ret, l with
  | r :: ret', x :: l' => combine r x :: combine_history ret' l'
  | _, _ => ret
  end.

(** [std::list<MineInfo> Client::miningHistory()], on the histories
    [m_localMiners[i].miningHistory()] of the local miners in order. *)
Definition miningHistory (histories : list (list MineInfo)) : list MineInfo :=
  match histories with
  | [] => []
  | first :: others => foldl combine_history first others
  end.

End History.

End ClientMore.

Module ClientMoreFacts.
Import ClientModel ClientMore WorkLoopFacts.

Section Facts.
Context `{ChainStore} `{TxPool} `{!StateModel} `{LogFilterModel} `{!ExecutiveModel}.

(** *** Frames *)

(** [only_filters c c']: the two clients differ in their filters at most. *)
Definition only_filters (c c' : Client) : Prop := c' = set_m_filters (m_filters c') c.

Lemma only_filters_refl c : only_filters c c.
Proof. by destruct c. Qed.

Lemma only_filters_trans c1 c2 c3 :
  only_filters c1 c2 → only_filters c2 c3 → only_filters c1 c3.
Proof. unfold only_filters. intros -> ->. done. Qed.

Lemma appendFromNewBlock_only_filters h st : only_filters st.1 (appendFromNewBlock h st).1.
Proof. by destruct st. Qed.

Lemma appendFromNewPending_only_filters r th st :
  only_filters st.1 (appendFromNewPending r th st).1.
Proof. by destruct st. Qed.

Lemma foldl_only_filters {A} (f : Client * gset Z → A → Client * gset Z) (l : list A) :
  (∀ st a, only_filters st.1 (f st a).1) →
  ∀ st, only_filters st.1 (foldl f st l).1.
Proof.
  intros Hf. induction l as [|a l IH]; intros st; simpl; [apply only_filters_refl|].
  eapply only_filters_trans; [apply Hf|apply IH].
Qed.

Lemma notify_pending_only_filters rs : ∀ i pend st st',
  notify_pending i rs pend st = Some st' → only_filters st.1 st'.1.
Proof.
  induction rs as [|r rs IH]; intros i pend st st' Hrun; simpl in *.
  - injection Hrun as <-. apply only_filters_refl.
  - destruct (pend !! i) as [t|]; simpl in *; [|done].
    eapply only_filters_trans; [apply appendFromNewPending_only_filters|by eapply IH].
Qed.

Lemma notify_pending_grows rs : ∀ i pend st st',
  notify_pending i rs pend st = Some st' → st.2 ⊆ st'.2.
Proof.
  induction rs as [|r rs IH]; intros i pend st st' Hrun; simpl in *.
  - by injection Hrun as <-.
  - destruct (pend !! i) as [t|]; simpl in *; [|done].
    apply IH in Hrun. destruct st as [c io]. simpl in *. set_solver.
Qed.

(** *** The stages of a pass *)

Lemma doWork_stages clk c c' rep :
  doWork clk c = Some (c', rep) →
  ∃ c1 ch1 c2 ch2 sgw c3 ch3 r3 c4 r4,
    doWork_miners c = (c1, ch1)
    ∧ doWork_chain c1 ch1 = (c2, ch2, sgw)
    ∧ doWork_preMine c2 ch2 = (c3, ch3, r3)
    ∧ doWork_pending c3 ch3 r3 = Some (c4, wr_changeds rep, r4)
    ∧ wr_slept rep = negb sgw
    ∧ doWork_gc clk
        (noteChanged (wr_changeds rep)
           (let c5 := if decide (wr_changeds rep ≠ ∅)
                      then set_m_host (noteNewBlocks <$> m_host c4) c4 else c4 in
            if r4 then noteStateChange_all c5 else c5))
      = (c', wr_collected rep).
Proof.
  unfold doWork.
  destruct (doWork_miners c) as [c1 ch1] eqn:E1.
  destruct (doWork_chain c1 ch1) as [[c2 ch2] sgw] eqn:E2.
  destruct (doWork_preMine c2 ch2) as [[c3 ch3] r3] eqn:E3.
  destruct (doWork_pending c3 ch3 r3) as [[[c4 changeds] r4]|] eqn:E4; simpl; [|done].
  destruct (doWork_gc clk _) as [c8 collected] eqn:Hgc.
  intros [= <- <-]. exists c1, ch1, c2, ch2, sgw, c3, ch3, r3, c4, r4.
  do 5 (split; [done|]). exact Hgc.
Qed.

(** *** hashrate *)

Lemma rate_sum_slow miners :
  Forall (λ m, 0 ≤ hashes (miningProgress m) < ms (miningProgress m)) miners →
  rate_sum miners = 0 ∧ Forall HashrateFacts.measurable miners.
Proof.
  induction 1 as [|m rest Hm _ [IH1 IH2]]; simpl; [done|].
  rewrite IH1, Z.div_small by done. split; [done|].
  constructor; [|done]. unfold HashrateFacts.measurable. lia.
Qed.

(** X8. Integer division drops whatever a miner hashes below one hash per
    millisecond: when every local miner has fewer hashes than elapsed
    milliseconds, [hashrate()] is 0, however many miners there are. *)
Theorem hashrate_of_slow_miners_is_zero (c : Client) :
  Forall (λ m, 0 ≤ hashes (miningProgress m) < ms (miningProgress m)) (m_localMiners c) →
  hashrate c = Some 0.
Proof.
  intros Hslow. apply rate_sum_slow in Hslow as [Hsum Hall].
  unfold hashrate, hashrate_of.
  rewrite (HashrateFacts.hashrate_loop_sum _ 0) by (done || lia).
  by rewrite Hsum.
Qed.

(** *** noteChanged *)


Lemma noteChanged_filters fs c k :
  m_filters (noteChanged fs c) !! k = clear_changes <$> m_filters c !! k.
Proof. unfold noteChanged. simpl. by rewrite lookup_fmap. Qed.

Lemma noteChanged_watches fs c key :
  m_watches (noteChanged fs c) !! key
  = (λ w : ClientWatch,
       if decide (id w ∈ fs) then
         match m_filters c !! id w with
         | Some f => watch_push w (changes f)
         | None => watch_push w [mkLocalisedLogEntry SpecialLogEntry 0 0]
         end
       else w) <$> m_watches c !! key.
Proof. unfold noteChanged. simpl. by rewrite lookup_fmap. Qed.

#[local] Arguments noteChanged : simpl never.


(** *** The accumulators after a pass *)

Definition drained (c : Client) : Prop :=
  ∀ k f, m_filters c !! k = Some f → changes f = [].

Lemma noteChanged_drained fs c : drained (noteChanged fs c).
Proof.
  intros k f. rewrite noteChanged_filters.
  destruct (m_filters c !! k); simpl; [|done]. by intros [= <-].
Qed.

Lemma uninstallWatch_drained i c : drained c → drained (uninstallWatch i c).
Proof.
  intros Hc. unfold uninstallWatch.
  destruct (m_watches c !! i) as [w|]; [|done]. simpl.
  destruct (m_filters c !! id w) as [f|] eqn:Hf; [|done].
  destruct (u32 (refCount f - 1) =? 0); intros k f'; simpl.
  - rewrite lookup_delete_Some. intros [_ Hk]. by eapply Hc.
  - rewrite lookup_insert_Some. intros [[_ <-]|[_ Hk]]; simpl; by eapply Hc.
Qed.

Lemma doWork_gc_drained clk c : drained c → drained (doWork_gc clk c).1.
Proof.
  intros Hc. unfold doWork_gc. destruct (_ <? _); [|done]. simpl.
  assert (drained (foldl (λ acc i, uninstallWatch i acc) c (toUninstall clk c))) as Hd.
  { generalize (toUninstall clk c). intros l. revert c Hc.
    induction l as [|i l IH]; intros c Hc; simpl; [done|].
    by apply IH, uninstallWatch_drained. }
  exact Hd.
Qed.

(** X10. After every pass of the work loop the accumulator of every
    installed filter is empty: what a pass adds to the filters, it hands to
    the watches or discards before it ends. *)
Theorem doWork_leaves_filters_drained (clk : Clock) (c c' : Client) (rep : WorkReport) :
  doWork clk c = Some (c', rep) →
  ∀ k f, m_filters c' !! k = Some f → changes f = [].
Proof.
  intros Hrun.
  apply doWork_stages in Hrun
    as (c1 & ch1 & c2 & ch2 & sgw & c3 & ch3 & r3 & c4 & r4 & _ & _ & _ & _ & _ & Hgc).
  change c' with (c', wr_collected rep).1. rewrite <- Hgc.
  apply doWork_gc_drained, noteChanged_drained.
Qed.

(** *** New blocks and the filters *)

(** The entries for the receipt at index [j] of the block [d]. *)
Definition block_receipt_entries (bc : BlockChain) (d : BlockInfo) (f : LogFilter)
    (j : nat) (tr : TransactionReceipt) : list LocalisedLogEntry :=
  (λ l, mkLocalisedLogEntry l (u32 (bi_number d)) (tx_sha3 (transaction bc (bi_hash d) j)))
    <$> matches f tr.

Lemma block_entries_imap bc d f br : ∀ j,
  block_entries bc d f j br
  = concat (imap (λ i tr, block_receipt_entries bc d f (j + i) tr) br).
Proof.
  induction br as [|tr br IH]; intros j; simpl; [done|].
  rewrite IH. unfold block_receipt_entries at 2. rewrite Nat.add_0_r. f_equal. f_equal.
  apply imap_ext. intros i x _. simpl. f_equal. lia.
Qed.

Lemma block_entries_not_nil bc d f br : ∀ j,
  block_entries bc d f j br ≠ [] ↔ ∃ tr, tr ∈ br ∧ matches f tr ≠ [].
Proof.
  induction br as [|tr br IH]; intros j; simpl.
  - split; [done|]. intros (tr & Hin & _). by apply elem_of_nil in Hin.
  - split.
    + intros Hne. destruct (matches f tr) as [|l m] eqn:Hm.
      * simpl in Hne. apply IH in Hne as (tr' & Hin & Hne). exists tr'. split; [by right|done].
      * exists tr. split; [left|]. by rewrite Hm.
    + intros (tr' & Hin & Hne). apply elem_of_cons in Hin as [->|Hin].
      * destruct (matches f tr); [done|]. done.
      * intros Hnil. apply app_eq_nil in Hnil as [_ Hnil]. revert Hnil. apply IH. eauto.
Qed.

Lemma appendFromNewBlock_filters h c io k :
  m_filters (appendFromNewBlock h (c, io)).1 !! k
  = (λ f : InstalledFilter,
       if envelops (filter f) Latest (bi_number (info (m_bc c) h))
          && matches_bloom (filter f) (logBloom (info (m_bc c) h))
       then push_changes f (block_entries (m_bc c) (info (m_bc c) h) (filter f) 0
                              (receipts (m_bc c) h))
       else f) <$> m_filters c !! k.
Proof. simpl. by rewrite lookup_fmap. Qed.

Lemma appendFromNewBlock_changed h c io k :
  k ∈ (appendFromNewBlock h (c, io)).2
  ↔ k ∈ io
    ∨ ∃ f, m_filters c !! k = Some f
        ∧ envelops (filter f) Latest (bi_number (info (m_bc c) h))
          && matches_bloom (filter f) (logBloom (info (m_bc c) h)) = true
        ∧ block_entries (m_bc c) (info (m_bc c) h) (filter f) 0 (receipts (m_bc c) h) ≠ [].
Proof.
  simpl. rewrite elem_of_union, elem_of_dom. unfold is_Some.
  setoid_rewrite map_lookup_filter_Some. simpl. split.
  - intros [?|(f & Hf & Ha & He)]; [by left|]. right. by exists f.
  - intros [?|(f & Hf & Ha & He)]; [by left|]. right. by exists f.
Qed.

(** X11. [appendFromNewBlock] adds to an installed filter, when the filter
    envelops the block's number and matches the block's bloom, one entry per
    log that it matches in each receipt of the block, in order, carrying
    the block number (as an [unsigned]) and the hash of the transaction at
    the receipt's index; any other filter is left as it is. The filter id is
    added to the changed set exactly when at least one entry was added. *)
Theorem appendFromNewBlock_accumulates (h : h256) (c : Client) (io : gset Z) (k : Z) :
  let d := info (m_bc c) h in
  let br := receipts (m_bc c) h in
  let out := appendFromNewBlock h (c, io) in
  (∀ f, m_filters c !! k = Some f →
     ∃ f', m_filters out.1 !! k = Some f'
       ∧ filter f' = filter f ∧ refCount f' = refCount f
       ∧ changes f'
         = changes f
           ++ (if envelops (filter f) Latest (bi_number d)
                  && matches_bloom (filter f) (logBloom d)
               then concat (imap (block_receipt_entries (m_bc c) d (filter f)) br)
               else []))
  ∧ (m_filters c !! k = None → m_filters out.1 !! k = None)
  ∧ (k ∈ out.2 ↔
       k ∈ io
       ∨ ∃ f, m_filters c !! k = Some f
           ∧ envelops (filter f) Latest (bi_number d) = true
           ∧ matches_bloom (filter f) (logBloom d) = true
           ∧ ∃ tr, tr ∈ br ∧ matches (filter f) tr ≠ []).
Proof.
  intros d br out. subst d br out. split; [|split].
  - intros f Hf. rewrite appendFromNewBlock_filters, Hf. simpl.
    destruct (_ && _); eexists; (split; [done|]); simpl.
    + rewrite block_entries_imap. done.
    + by rewrite app_nil_r.
  - intros Hnone. by rewrite appendFromNewBlock_filters, Hnone.
  - rewrite appendFromNewBlock_changed. split.
    + intros [?|(f & Hf & Ha & He)]; [by left|]. right. exists f.
      apply andb_true_iff in Ha as [? ?]. apply block_entries_not_nil in He. done.
    + intros [?|(f & Hf & Ha & Hb & He)]; [by left|]. right. exists f.
      split; [done|]. split; [by rewrite Ha, Hb|]. by apply block_entries_not_nil.
Qed.

(** *** Pending transactions: the changed set *)

Lemma pending_entries_not_nil bc f r th :
  pending_entries bc f r th ≠ []
  ↔ envelops f Pending (u32 (bc_number bc + 1)) = true ∧ matches f r ≠ [].
Proof.
  unfold pending_entries. destruct (envelops _ _ _); [|by split; [|intros [? ?]]].
  destruct (matches f r); simpl; split; try done. by intros [_ ?].
Qed.

Lemma appendFromNewPending_changed r th c io k :
  k ∈ (appendFromNewPending r th (c, io)).2
  ↔ k ∈ io ∨ ∃ f, m_filters c !! k = Some f
               ∧ pending_entries (m_bc c) (filter f) r th ≠ [].
Proof.
  simpl. rewrite elem_of_union, elem_of_dom. unfold is_Some.
  setoid_rewrite map_lookup_filter_Some. simpl.
  setoid_rewrite pending_entries_not_nil.
  assert (∀ f : InstalledFilter,
            envelops (filter f) Pending (u32 (bc_number (m_bc c) + 1))
            && (0 <? length (matches (filter f) r))%nat = true
            ↔ envelops (filter f) Pending (u32 (bc_number (m_bc c) + 1)) = true
              ∧ matches (filter f) r ≠ []) as Hhit.
  { intros f. rewrite andb_true_iff, Nat.ltb_lt.
    destruct (matches (filter f) r); simpl; split; intros [? ?]; split; try done; lia. }
  split.
  - intros [?|(f & Hf & Ha)]; [by left|]. right. exists f. split; [done|]. by apply Hhit.
  - intros [?|(f & Hf & Ha)]; [by left|]. right. exists f. split; [done|]. by apply Hhit.
Qed.

Lemma notify_pending_changed rs : ∀ i pend st st',
  (i + length rs ≤ length pend)%nat →
  notify_pending i rs pend st = Some st' →
  ∀ k, k ∈ st'.2
       ↔ k ∈ st.2 ∨ ∃ f, m_filters st.1 !! k = Some f
                      ∧ pending_log (m_bc st.1) (filter f) i rs pend ≠ [].
Proof.
  induction rs as [|r rs IH]; intros i pend st st' Hlen Hrun k; simpl in *.
  - injection Hrun as <-. split; [by left|]. by intros [?|(f & _ & ?)].
  - destruct (lookup_lt_is_Some_2 pend i) as [t Ht]; [lia|]. rewrite Ht in *.
    simpl in Hrun. destruct st as [c io].
    assert (S i + length rs ≤ length pend)%nat as Hlen' by lia.
    rewrite (IH _ _ _ _ Hlen' Hrun k).
    rewrite appendFromNewPending_changed, appendFromNewPending_bc.
    cbn [fst snd]. split.
    + intros [[?|(f & Hf & He)]|(f1 & Hf1 & He)]; [by left| |].
      * right. exists f. split; [done|]. intros Hnil.
        by apply app_eq_nil in Hnil as [? _].
      * rewrite appendFromNewPending_filters in Hf1.
        destruct (m_filters c !! k) as [f|]; simpl in *; [|done].
        injection Hf1 as <-. right. exists f. split; [done|]. simpl in He.
        intros Hnil. by apply app_eq_nil in Hnil as [_ ?].
    + intros [?|(f & Hf & He)]; [by left; left|].
      destruct (pending_entries (m_bc c) (filter f) r (tx_sha3 t)) eqn:Hpe.
      * right. eexists. rewrite appendFromNewPending_filters, Hf. simpl.
        split; [done|]. simpl. done.
      * left. right. exists f. split; [done|]. by rewrite Hpe.
Qed.

Lemma zipped_entries_not_nil n f rs : ∀ pend,
  (length rs ≤ length pend)%nat →
  concat (zip_with (receipt_entries n f) rs pend) ≠ []
  ↔ ∃ r, r ∈ rs ∧ matches f r ≠ [].
Proof.
  induction rs as [|r rs IH]; intros pend Hlen; simpl.
  - split; [done|]. intros (r & Hin & _). by apply elem_of_nil in Hin.
  - destruct pend as [|t pend]; simpl in *; [lia|].
    unfold receipt_entries at 1. split.
    + intros Hne. destruct (matches f r) as [|l m] eqn:Hm.
      * simpl in Hne. apply IH in Hne as (r' & Hin & Hne); [|lia].
        exists r'. split; [by right|done].
      * exists r. split; [left|]. by rewrite Hm.
    + intros (r' & Hin & Hne). apply elem_of_cons in Hin as [->|Hin].
      * by destruct (matches f r).
      * intros Hnil. apply app_eq_nil in Hnil as [_ Hnil]. revert Hnil.
        apply IH; [lia|]. eauto.
Qed.

(** X12. In the pending phase a filter id joins the changed set exactly when
    the filter envelops the pending block and matches a log of some new
    receipt; [PendingChangedFilter] joins it exactly when there is a new
    receipt, and then the miners are to be resynchronised. *)
Theorem doWork_pending_changed_set (c : Client) (changeds : gset Z) (resync : bool) :
  let r := st_sync_queue (m_postMine c) (m_bc c) (m_tq c) (m_gp c) in
  let rs := r.1.1 in
  let n := u32 (bc_number (m_bc c) + 1) in
  (length rs ≤ length (pending r.1.2))%nat →
  ∃ out, doWork_pending c changeds resync = Some out
    ∧ (∀ k, k ∈ out.1.2 ↔
         k ∈ changeds
         ∨ (rs ≠ [] ∧ k = PendingChangedFilter)
         ∨ ∃ f, m_filters c !! k = Some f
             ∧ envelops (filter f) Pending n = true
             ∧ ∃ r, r ∈ rs ∧ matches (filter f) r ≠ [])
    ∧ out.2 = (if rs is [] then resync else true).
Proof.
  intros r rs n Hlen. subst rs n. unfold doWork_pending. fold r.
  destruct r as [[rs post'] tq'] eqn:Hr. simpl in *.
  set (c1 := set_m_tq tq' (set_m_postMine post' c)).
  destruct rs as [|r0 rs].
  - simpl. eexists. split; [done|]. simpl. split; [|done].
    intros k. split; [by left|].
    intros [?|[[? _]|(f & _ & _ & r' & Hin & _)]]; [done|done|].
    by apply elem_of_nil in Hin.
  - change (0 <? length (r0 :: rs))%nat with true. cbv iota.
    change (pending (m_postMine c1)) with (pending post').
    destruct (notify_pending_filters (r0 :: rs) 0 (pending post') (c1, changeds))
      as (st' & Hrun & _ & _ & _); [simpl in *; lia|].
    rewrite Hrun. simpl. eexists. split; [done|]. simpl. split; [|done].
    intros k. rewrite elem_of_union, elem_of_singleton.
    assert (0 + length (r0 :: rs) ≤ length (pending post'))%nat as Hlen' by (simpl in *; lia).
    rewrite (notify_pending_changed _ _ _ _ _ Hlen' Hrun k).
    cbn [fst snd]. change (m_filters c1) with (m_filters c).
    change (m_bc c1) with (m_bc c).
    assert (∀ f : InstalledFilter,
              pending_log (m_bc c) (filter f) 0 (r0 :: rs) (pending post') ≠ []
              ↔ envelops (filter f) Pending (u32 (bc_number (m_bc c) + 1)) = true
                ∧ ∃ r, r ∈ r0 :: rs ∧ matches (filter f) r ≠ []) as Hlog.
    { intros f. rewrite pending_log_enveloped by (simpl in *; lia). rewrite drop_0.
      destruct (envelops _ _ _).
      - rewrite zipped_entries_not_nil by done. split; [by intros ?|by intros [_ ?]].
      - split; [done|by intros [? _]]. }
    split.
    + intros [[?|(f & Hf & He)]|?]; [by left| |by right; left].
      right. right. exists f. split; [done|]. by apply Hlog.
    + intros [?|[[_ ?]|(f & Hf & He)]]; [by left; left|by right|].
      left. right. exists f. split; [done|]. by apply Hlog.
Qed.

(** *** From the filters to the watches *)

(** [noted st]: every filter that holds entries is in the changed set. *)
Definition noted (st : Client * gset Z) : Prop :=
  ∀ k f, m_filters st.1 !! k = Some f → changes f ≠ [] → k ∈ st.2.

Lemma noted_same_filters st st' :
  m_filters st'.1 = m_filters st.1 → st.2 ⊆ st'.2 → noted st → noted st'.
Proof. intros Hf Hsub Hn k f. rewrite Hf. intros ??. apply Hsub. by eapply Hn. Qed.

Lemma appendFromNewBlock_noted h st : noted st → noted (appendFromNewBlock h st).
Proof.
  destruct st as [c io]. intros Hn k f' Hk Hne.
  rewrite appendFromNewBlock_filters in Hk.
  destruct (m_filters c !! k) as [f|] eqn:Hf; simpl in Hk; [|done].
  injection Hk as <-. apply appendFromNewBlock_changed.
  destruct (changes f) as [|e es] eqn:Hch.
  - right. exists f. split; [done|].
    destruct (_ && _); simpl in Hne; rewrite Hch in Hne; [|done]. done.
  - left. apply (Hn k f); [done|]. by rewrite Hch.
Qed.

Lemma appendFromNewPending_noted r th st : noted st → noted (appendFromNewPending r th st).
Proof.
  destruct st as [c io]. intros Hn k f' Hk Hne.
  rewrite appendFromNewPending_filters in Hk.
  destruct (m_filters c !! k) as [f|] eqn:Hf; simpl in Hk; [|done].
  injection Hk as <-. apply appendFromNewPending_changed.
  destruct (changes f) as [|e es] eqn:Hch.
  - right. exists f. split; [done|]. simpl in Hne. by rewrite Hch in Hne.
  - left. apply (Hn k f); [done|]. by rewrite Hch.
Qed.

Lemma foldl_noted {A} (f : Client * gset Z → A → Client * gset Z) (l : list A) :
  (∀ st a, noted st → noted (f st a)) → ∀ st, noted st → noted (foldl f st l).
Proof.
  intros Hf. induction l as [|a l IH]; intros st Hst; simpl; [done|]. by apply IH, Hf.
Qed.

Lemma maintainMiner_noted isComplete blockData st :
  noted st → noted (maintainMiner isComplete blockData st).
Proof.
  unfold maintainMiner. destruct isComplete; [|done]. destruct st as [c changeds].
  destruct (attemptImport _ _ _) as [[[hs ch] bc'] db']. intros Hn.
  destruct (0 <? length hs)%nat; simpl; [|exact Hn].
  match goal with |- context [foldl ?g ?s hs] =>
    assert (noted (foldl g s hs)) as Hfold end.
  { apply foldl_noted; [|exact Hn].
    intros st a Hst. case_decide; [by apply appendFromNewBlock_noted|done]. }
  intros k f Hk Hne. apply elem_of_union. left. by apply (Hfold k f).
Qed.

Lemma maintainLocalMiner_noted st i : noted st → noted (maintainLocalMiner st i).
Proof.
  unfold maintainLocalMiner. destruct (m_localMiners st.1 !! i); [|done].
  apply maintainMiner_noted.
Qed.

Lemma doWork_miners_noted c : noted (c, ∅) → noted (doWork_miners c).
Proof.
  intros Hn. unfold doWork_miners. apply maintainMiner_noted.
  apply foldl_noted; [|done]. apply maintainLocalMiner_noted.
Qed.

Lemma doWork_chain_noted c changeds : noted (c, changeds) → noted (doWork_chain c changeds).1.
Proof.
  intros Hn. unfold doWork_chain.
  destruct (bc_sync _ _ _ _) as [[[[[fresh dead] sgw] bc'] bq'] db']. simpl.
  destruct (0 <? length fresh)%nat; simpl; [|exact Hn].
  match goal with |- context [foldl ?g ?s fresh] =>
    assert (noted (foldl g s fresh)) as Hfold end.
  { apply foldl_noted; [|exact Hn]. intros st a. apply appendFromNewBlock_noted. }
  intros k f Hk Hne. apply elem_of_union. left. by apply (Hfold k f).
Qed.

Lemma doWork_preMine_noted c changeds :
  noted (c, changeds) → noted (doWork_preMine c changeds).1.
Proof.
  intros Hn. unfold doWork_preMine. destruct (st_sync _ _) as [moved pre'].
  destruct (moved || _); simpl; [|exact Hn].
  intros k f Hk Hne. apply elem_of_union. left. by apply (Hn k f).
Qed.

Lemma notify_pending_noted rs : ∀ i pend st st',
  notify_pending i rs pend st = Some st' → noted st → noted st'.
Proof.
  induction rs as [|r rs IH]; intros i pend st st' Hrun Hn; simpl in *.
  - by injection Hrun as <-.
  - destruct (pend !! i) as [t|]; simpl in *; [|done].
    eapply IH; [done|]. by apply appendFromNewPending_noted.
Qed.

Lemma doWork_pending_noted c changeds resync out :
  doWork_pending c changeds resync = Some out → noted (c, changeds) → noted out.1.
Proof.
  unfold doWork_pending. destruct (st_sync_queue _ _ _ _) as [[rs post'] tq'].
  destruct (0 <? length rs)%nat.
  - destruct (notify_pending _ _ _ _) as [st'|] eqn:Hrun; simpl; [|done].
    intros [= <-] Hn. apply (notify_pending_noted _ _ _ _ _ Hrun) in Hn.
    intros k f Hk Hne. apply elem_of_union. left. by apply (Hn k f).
  - intros [= <-] Hn. exact Hn.
Qed.

Lemma doWork_chain_watches c changeds : m_watches (doWork_chain c changeds).1.1 = m_watches c.
Proof.
  unfold doWork_chain.
  destruct (bc_sync _ _ _ _) as [[[[[fresh dead] sgw] bc'] bq'] db']. simpl.
  destruct (0 <? length fresh)%nat; simpl; [|done].
  match goal with |- context [foldl ?g ?s fresh] =>
    pose proof (foldl_untouched g fresh (λ st a, appendFromNewBlock_untouched a st) s)
      as (_ & Hw & _) end.
  exact Hw.
Qed.

Lemma doWork_pending_watches c changeds resync out :
  doWork_pending c changeds resync = Some out → m_watches out.1.1 = m_watches c.
Proof.
  unfold doWork_pending. destruct (st_sync_queue _ _ _ _) as [[rs post'] tq'].
  destruct (0 <? length rs)%nat.
  - destruct (notify_pending _ _ _ _) as [st'|] eqn:Hrun; simpl; [|done].
    intros [= <-]. apply notify_pending_untouched in Hrun as (_ & Hw & _). exact Hw.
  - by intros [= <-].
Qed.

(** The first four stages of a pass: miners, chain, pre-mine state, pending
    transactions. *)
Definition doWork_collect (c : Client) : option (Client * gset Z * bool) :=
  let '(c1, ch1) := doWork_miners c in
  let '(c2, ch2, _) := doWork_chain c1 ch1 in
  let '(c3, ch3, r3) := doWork_preMine c2 ch2 in
  doWork_pending c3 ch3 r3.

(** X13. No log entry is lost and none is handed over twice: when a pass
    starts with empty accumulators, every watch that is still installed
    after it has received, appended to what it held, exactly the entries
    that the pass accumulated in the watch's filter. *)
Theorem doWork_hands_accumulated_entries_to_watches (clk : Clock) (c c' : Client)
    (rep : WorkReport) :
  doWork clk c = Some (c', rep) →
  (∀ k f, m_filters c !! k = Some f → changes f = []) →
  ∃ c4 r4, doWork_collect c = Some (c4, wr_changeds rep, r4)
    ∧ ∀ key w w' f4,
        m_watches c !! key = Some w →
        m_watches c' !! key = Some w' →
        m_filters c4 !! id w = Some f4 →
        id w' = id w ∧ lastPoll w' = lastPoll w
        ∧ w_changes w' = w_changes w ++ changes f4.
Proof.
  intros Hrun Hdrained.
  apply doWork_stages in Hrun
    as (c1 & ch1 & c2 & ch2 & sgw & c3 & ch3 & r3 & c4 & r4
        & E1 & E2 & E3 & E4 & _ & Hgc).
  exists c4, r4. split.
  { unfold doWork_collect. by rewrite E1, E2, E3. }
  assert (noted (c4, wr_changeds rep)) as Hnoted.
  { apply (doWork_pending_noted _ _ _ _ E4).
    pose proof (doWork_preMine_noted c2 ch2) as Hn3. rewrite E3 in Hn3. apply Hn3.
    pose proof (doWork_chain_noted c1 ch1) as Hn2. rewrite E2 in Hn2. apply Hn2.
    pose proof (doWork_miners_noted c) as Hn1. rewrite E1 in Hn1. apply Hn1.
    intros k f Hk Hne. by apply Hdrained in Hk. }
  assert (m_watches c4 = m_watches c) as Hwatches.
  { pose proof (doWork_pending_watches _ _ _ _ E4) as W4. simpl in W4.
    pose proof (doWork_preMine_untouched c2 ch2) as (_ & W3 & _).
    rewrite E3 in W3. simpl in W3.
    pose proof (doWork_chain_watches c1 ch1) as W2. rewrite E2 in W2. simpl in W2.
    pose proof (doWork_miners_untouched c) as (_ & W1 & _).
    rewrite E1 in W1. simpl in W1. congruence. }
  set (c6 := let c5 := if decide (wr_changeds rep ≠ ∅)
                       then set_m_host (noteNewBlocks <$> m_host c4) c4 else c4 in
             if r4 then noteStateChange_all c5 else c5) in Hgc.
  assert (m_watches c6 = m_watches c4 ∧ m_filters c6 = m_filters c4) as [Hw6 Hf6].
  { subst c6. simpl. case_decide; destruct r4; done. }
  intros key w w' f4 Hw Hw' Hf4.
  assert (m_watches (noteChanged (wr_changeds rep) c6) !! key = Some w') as Hw7.
  { destruct (doWork_gc_watches clk (noteChanged (wr_changeds rep) c6))
      as (_ & Hskip & Hdone).
    rewrite Hgc in Hskip, Hdone. simpl in Hskip, Hdone.
    destruct (wr_collected rep).
    - destruct (Hdone eq_refl) as [_ Hlook]. rewrite Hlook in Hw'.
      by destruct (expired clk _ key).
    - by rewrite <- (Hskip eq_refl). }
  rewrite noteChanged_watches, Hw6, Hwatches, Hw in Hw7. simpl in Hw7.
  rewrite Hf6, Hf4 in Hw7. injection Hw7 as <-.
  case_decide as Hin; simpl; [done|].
  repeat split; try done.
  destruct (changes f4) as [|e es] eqn:Hch; [by rewrite app_nil_r|].
  exfalso. apply Hin. apply (Hnoted (id w) f4); [done|]. by rewrite Hch.
Qed.

(** *** Completed miners *)

Definition told (b : bool) (miners : list LocalMiner) : list LocalMiner :=
  if b then noteStateChange <$> miners else miners.

Lemma told_told b1 b2 miners : told b2 (told b1 miners) = told (b1 || b2) miners.
Proof.
  destruct b1, b2; simpl; try done.
  rewrite <- list_fmap_compose. apply list_fmap_ext. intros i m _. by destruct m.
Qed.

Lemma only_filters_miners c c' : only_filters c c' → m_localMiners c' = m_localMiners c.
Proof. unfold only_filters. by intros ->. Qed.

Lemma only_filters_host c c' : only_filters c c' → m_host c' = m_host c.
Proof. unfold only_filters. by intros ->. Qed.

Lemma maintainMiner_miners isComplete blockData st :
  m_localMiners (maintainMiner isComplete blockData st).1
  = told isComplete (m_localMiners st.1)
  ∧ m_host (maintainMiner isComplete blockData st).1 = m_host st.1.
Proof.
  unfold maintainMiner. destruct isComplete; [|done]. destruct st as [c changeds].
  destruct (attemptImport _ _ _) as [[[hs ch] bc'] db']. simpl.
  destruct (0 <? length hs)%nat; simpl; [|done].
  match goal with |- context [foldl ?g ?s hs] =>
    assert (only_filters s.1 (foldl g s hs).1) as Hfold end.
  { apply foldl_only_filters. intros st a.
    case_decide; [apply appendFromNewBlock_only_filters|apply only_filters_refl]. }
  by rewrite (only_filters_miners _ _ Hfold), (only_filters_host _ _ Hfold).
Qed.

Lemma maintainMiner_remote isComplete blockData st :
  m_remoteMiner (maintainMiner isComplete blockData st).1 = m_remoteMiner st.1.
Proof.
  unfold maintainMiner. destruct isComplete; [|done]. destruct st as [c changeds].
  destruct (attemptImport _ _ _) as [[[hs ch] bc'] db']. simpl.
  destruct (0 <? length hs)%nat; simpl; [|done].
  match goal with |- context [foldl ?g ?s hs] =>
    assert (only_filters s.1 (foldl g s hs).1) as Hfold end.
  { apply foldl_only_filters. intros st a.
    case_decide; [apply appendFromNewBlock_only_filters|apply only_filters_refl]. }
  unfold only_filters in Hfold. by rewrite Hfold.
Qed.

(** A miner that is not complete. *)
Definition working (m : LocalMiner) : Prop := lm_complete m = false.

Lemma told_working miners : Forall working (noteStateChange <$> miners).
Proof. by apply Forall_fmap, Forall_true. Qed.

Lemma maintainLocalMiner_host st i :
  m_host (maintainLocalMiner st i).1 = m_host st.1
  ∧ m_remoteMiner (maintainLocalMiner st i).1 = m_remoteMiner st.1.
Proof.
  unfold maintainLocalMiner. destruct (m_localMiners st.1 !! i) as [m|]; [|done].
  split; [apply maintainMiner_miners|apply maintainMiner_remote].
Qed.

Lemma local_miners_host (l : list nat) : ∀ st,
  m_host (foldl maintainLocalMiner st l).1 = m_host st.1
  ∧ m_remoteMiner (foldl maintainLocalMiner st l).1 = m_remoteMiner st.1.
Proof.
  induction l as [|i l IH]; intros st; simpl; [done|].
  destruct (IH (maintainLocalMiner st i)) as [-> ->]. apply maintainLocalMiner_host.
Qed.

(** The loop passes over the miners that are not complete. *)
Lemma local_miners_skipped (l : list nat) (st : Client * gset Z) :
  (∀ i m, i ∈ l → m_localMiners st.1 !! i = Some m → working m) →
  foldl maintainLocalMiner st l = st.
Proof.
  intros Hidle. induction l as [|i l IH]; simpl; [done|].
  assert (maintainLocalMiner st i = st) as ->.
  { unfold maintainLocalMiner.
    destruct (m_localMiners st.1 !! i) as [m|] eqn:Hm; [|done].
    by rewrite (Hidle i m (list_elem_of_here _ _) Hm). }
  apply IH. intros j m Hj. apply Hidle. by right.
Qed.

(** The first completed local miner is the only one whose block the loop
    imports: the others are told of the state change before their turn. *)
Lemma local_miners_first (c : Client) (pre post : list LocalMiner) (m : LocalMiner) :
  m_localMiners c = pre ++ m :: post →
  Forall working pre →
  lm_complete m = true →
  foldl maintainLocalMiner (c, ∅) (seq 0 (length (m_localMiners c)))
  = maintainMiner true (lm_blockData m) (c, ∅).
Proof.
  intros Hl Hpre Hm. rewrite Hl at 1. rewrite length_app. cbn [length].
  rewrite seq_app, foldl_app. cbn [seq foldl plus].
  rewrite (local_miners_skipped (seq 0 (length pre)) (c, ∅)).
  - assert (maintainLocalMiner (c, ∅) (length pre)
            = maintainMiner true (lm_blockData m) (c, ∅)) as ->.
    { unfold maintainLocalMiner. cbn [fst]. rewrite Hl, list_lookup_middle by done.
      by rewrite Hm. }
    apply local_miners_skipped. intros i m' _ Hi.
    destruct (maintainMiner_miners true (lm_blockData m) (c, ∅)) as [Hall _].
    rewrite Hall in Hi. simpl in Hi.
    by apply (Forall_lookup_1 _ _ _ _ (told_working (m_localMiners c)) Hi).
  - intros i m' Hi Hlook. cbn [fst] in Hlook. apply elem_of_seq in Hi.
    rewrite Hl, lookup_app_l in Hlook by lia.
    by apply (Forall_lookup_1 _ _ _ _ Hpre Hlook).
Qed.

Lemma first_complete (l : list LocalMiner) :
  existsb lm_complete l = true →
  ∃ pre m post, l = pre ++ m :: post ∧ Forall working pre ∧ lm_complete m = true.
Proof.
  induction l as [|m l IH]; simpl; [done|].
  destruct (lm_complete m) eqn:Hm; simpl.
  - intros _. by exists [], m, l.
  - intros Hl. destruct (IH Hl) as (pre & m' & post & -> & Hpre & Hm').
    exists (m :: pre), m', post. split; [done|]. split; [|done]. by constructor.
Qed.

Lemma none_complete (l : list LocalMiner) :
  existsb lm_complete l = false → Forall working l.
Proof.
  induction l as [|m l IH]; simpl; [done|].
  intros [Hm Hl]%orb_false_iff. constructor; [done|]. by apply IH.
Qed.

(** X14. The first stage of a pass does nothing when no miner, local or
    remote, reports a completed block. As soon as one does, every local
    miner is told of a state change, so that none is complete afterwards,
    and no miner is added or removed. Of the local miners, only the first
    completed one has its block imported: the stage is the import of that
    block followed by the turn of the remote miner. *)
Theorem doWork_miners_tells_every_miner (c : Client) :
  let complete := existsb lm_complete (m_localMiners c) || rm_complete (m_remoteMiner c) in
  let remote := m_remoteMiner c in
  (complete = false → doWork_miners c = (c, ∅))
  ∧ (complete = true →
       m_localMiners (doWork_miners c).1 = noteStateChange <$> m_localMiners c
       ∧ Forall (λ m, lm_stateChanged m = true ∧ lm_complete m = false)
           (m_localMiners (doWork_miners c).1))
  ∧ (∀ pre m post,
       m_localMiners c = pre ++ m :: post →
       Forall (λ m', lm_complete m' = false) pre →
       lm_complete m = true →
       doWork_miners c
       = maintainMiner (rm_complete remote) (rm_blockData remote)
           (maintainMiner true (lm_blockData m) (c, ∅))).
Proof.
  intros complete remote. subst complete remote.
  assert (∀ pre m post,
            m_localMiners c = pre ++ m :: post → Forall working pre →
            lm_complete m = true →
            doWork_miners c
            = maintainMiner (rm_complete (m_remoteMiner c)) (rm_blockData (m_remoteMiner c))
                (maintainMiner true (lm_blockData m) (c, ∅))) as Hfirst.
  { intros pre m post Hl Hpre Hm. unfold doWork_miners.
    rewrite (local_miners_first c pre post m Hl Hpre Hm).
    by rewrite maintainMiner_remote. }
  assert (Forall working (m_localMiners c) →
          doWork_miners c
          = maintainMiner (rm_complete (m_remoteMiner c)) (rm_blockData (m_remoteMiner c))
              (c, ∅)) as Hnone.
  { intros Hidle. unfold doWork_miners. rewrite local_miners_skipped; [done|].
    intros i m _ Hi. by apply (Forall_lookup_1 _ _ _ _ Hidle Hi). }
  split; [|split; [|exact Hfirst]].
  - intros [Hlocal Hremote]%orb_false_iff.
    rewrite (Hnone (none_complete _ Hlocal)), Hremote. done.
  - intros Hsome.
    assert (m_localMiners (doWork_miners c).1 = noteStateChange <$> m_localMiners c)
      as Heq.
    { destruct (existsb lm_complete (m_localMiners c)) eqn:Hlocal.
      - destruct (first_complete _ Hlocal) as (pre & m & post & Hl & Hpre & Hm).
        rewrite (Hfirst pre m post Hl Hpre Hm).
        destruct (maintainMiner_miners (rm_complete (m_remoteMiner c))
                    (rm_blockData (m_remoteMiner c))
                    (maintainMiner true (lm_blockData m) (c, ∅))) as [-> _].
        destruct (maintainMiner_miners true (lm_blockData m) (c, ∅)) as [-> _].
        by rewrite told_told.
      - simpl in Hsome. rewrite (Hnone (none_complete _ Hlocal)), Hsome.
        by destruct (maintainMiner_miners true (rm_blockData (m_remoteMiner c)) (c, ∅))
          as [-> _]. }
    split; [exact Heq|]. rewrite Heq. by apply Forall_fmap, Forall_true.
Qed.

(** *** Fresh blocks and the host *)

Lemma doWork_chain_grows c changeds :
  changeds ⊆ (doWork_chain c changeds).1.2
  ∧ m_host (doWork_chain c changeds).1.1 = m_host c
  ∧ ((bc_sync (m_bc c) (m_bq c) (m_stateDB c) 100).1.1.1.1.1 ≠ [] →
       ChainChangedFilter ∈ (doWork_chain c changeds).1.2).
Proof.
  unfold doWork_chain.
  destruct (bc_sync _ _ _ _) as [[[[[fresh dead] sgw] bc'] bq'] db']. simpl.
  destruct (0 <? length fresh)%nat eqn:Hn; simpl.
  - match goal with |- context [foldl ?g ?s fresh] =>
      assert (only_filters s.1 (foldl g s fresh).1) as Hfold
        by (apply foldl_only_filters; intros; apply appendFromNewBlock_only_filters);
      assert (changeds ⊆ (foldl g s fresh).2) as Hsub
    end.
    { generalize fresh. intros l.
      match goal with |- context [foldl ?g (?c0, changeds) l] => generalize c0 end.
      generalize changeds. induction l as [|a l IH]; intros io c0; [done|].
      cbn [foldl]. destruct (appendFromNewBlock a (c0, io)) as [c1 io1] eqn:Hstep.
      assert (io ⊆ io1) as Hio by (injection Hstep as _ <-; set_solver).
      specialize (IH io1 c1). set_solver. }
    apply only_filters_host in Hfold. simpl in Hfold.
    split; [set_solver|]. split; [exact Hfold|intros _; set_solver].
  - split; [done|]. split; [done|]. intros Hfresh. by destruct fresh.
Qed.

Lemma doWork_preMine_grows c changeds :
  changeds ⊆ (doWork_preMine c changeds).1.2
  ∧ m_host (doWork_preMine c changeds).1.1 = m_host c.
Proof.
  unfold doWork_preMine. destruct (st_sync _ _) as [moved pre'].
  destruct (moved || _); simpl; split; try done. set_solver.
Qed.

Lemma doWork_pending_grows c changeds resync out :
  doWork_pending c changeds resync = Some out →
  changeds ⊆ out.1.2
  ∧ host_newBlocks <$> m_host out.1.1 = host_newBlocks <$> m_host c.
Proof.
  unfold doWork_pending. destruct (st_sync_queue _ _ _ _) as [[rs post'] tq'].
  destruct (0 <? length rs)%nat.
  - destruct (notify_pending _ _ _ _) as [st'|] eqn:Hrun; simpl; [|done].
    intros [= <-]. simpl.
    pose proof (notify_pending_grows _ _ _ _ _ Hrun) as Hsub.
    pose proof (notify_pending_only_filters _ _ _ _ _ Hrun) as Honly.
    apply only_filters_host in Honly. simpl in *. rewrite Honly.
    split; [set_solver|]. by destruct (m_host c).
  - by intros [= <-].
Qed.

Lemma uninstallWatch_host i c : m_host (uninstallWatch i c) = m_host c.
Proof.
  unfold uninstallWatch. destruct (m_watches c !! i) as [w|]; [|done]. simpl.
  destruct (m_filters c !! id w) as [f|]; [|done]. by destruct (_ =? 0).
Qed.

Lemma doWork_gc_host clk c : m_host (doWork_gc clk c).1 = m_host c.
Proof.
  unfold doWork_gc. destruct (_ <? _); [|done]. simpl.
  generalize (toUninstall clk c). intros l. revert c.
  induction l as [|i l IH]; intros c; simpl; [done|].
  by rewrite IH, uninstallWatch_host.
Qed.

(** X15. A pass in which the chain store reports fresh blocks puts
    [ChainChangedFilter] in the set of changed filters that it hands to
    [noteChanged]. *)
Theorem doWork_fresh_blocks_note_chain_changed (clk : Clock) (c c' : Client)
    (rep : WorkReport) :
  doWork clk c = Some (c', rep) →
  let c1 := (doWork_miners c).1 in
  (bc_sync (m_bc c1) (m_bq c1) (m_stateDB c1) 100).1.1.1.1.1 ≠ [] →
  ChainChangedFilter ∈ wr_changeds rep.
Proof.
  intros Hrun c1 Hfresh. subst c1.
  apply doWork_stages in Hrun
    as (c1 & ch1 & c2 & ch2 & sgw & c3 & ch3 & r3 & c4 & r4
        & E1 & E2 & E3 & E4 & _ & _).
  rewrite E1 in Hfresh. simpl in Hfresh.
  destruct (doWork_chain_grows c1 ch1) as (_ & _ & Hcc). rewrite E2 in Hcc.
  destruct (doWork_preMine_grows c2 ch2) as [H23 _]. rewrite E3 in H23.
  destruct (doWork_pending_grows _ _ _ _ E4) as [H34 _]. simpl in *.
  specialize (Hcc Hfresh). set_solver.
Qed.

(** X16. The host is reached through a weak pointer: a pass never creates a
    host where there is none, and where there is one it raises its
    new-blocks flag exactly when the set of changed filters is not empty
    (a flag already raised stays raised). *)
Theorem doWork_notes_new_blocks_to_host (clk : Clock) (c c' : Client) (rep : WorkReport) :
  doWork clk c = Some (c', rep) →
  (m_host c = None → m_host c' = None)
  ∧ ∀ h, m_host c = Some h →
      ∃ h', m_host c' = Some h'
        ∧ host_newBlocks h'
          = (if decide (wr_changeds rep ≠ ∅) then true else host_newBlocks h).
Proof.
  intros Hrun.
  apply doWork_stages in Hrun
    as (c1 & ch1 & c2 & ch2 & sgw & c3 & ch3 & r3 & c4 & r4
        & E1 & E2 & E3 & E4 & _ & Hgc).
  assert (m_host c1 = m_host c) as K1.
  { unfold doWork_miners in E1.
    destruct (local_miners_host (seq 0 (length (m_localMiners c))) (c, ∅)) as [Hh _].
    match type of E1 with maintainMiner ?b ?d ?st = _ =>
      destruct (maintainMiner_miners b d st) as [_ Hr] end.
    rewrite E1 in Hr. simpl in Hr, Hh. congruence. }
  destruct (doWork_chain_grows c1 ch1) as (_ & K2 & _). rewrite E2 in K2. simpl in K2.
  destruct (doWork_preMine_grows c2 ch2) as [_ K3]. rewrite E3 in K3. simpl in K3.
  destruct (doWork_pending_grows _ _ _ _ E4) as [_ K4]. simpl in K4.
  match type of Hgc with doWork_gc _ ?x = _ =>
    pose proof (doWork_gc_host clk x) as K8 end.
  rewrite Hgc in K8. cbn [fst] in K8.
  assert (m_host c' = if decide (wr_changeds rep ≠ ∅)
                      then noteNewBlocks <$> m_host c4 else m_host c4) as K.
  { rewrite K8. unfold noteChanged. simpl. case_decide; by destruct r4. }
  rewrite K3, K2, K1 in K4. split.
  - intros Hnone. rewrite Hnone in K4. rewrite K.
    destruct (m_host c4); [done|]. by case_decide.
  - intros h Hh. rewrite Hh in K4. rewrite K.
    destruct (m_host c4) as [h4|]; [|done]. simpl in K4. injection K4 as K4.
    case_decide; eexists; (split; [done|]); simpl; done.
Qed.

(** *** clearPending *)

(** X17. [clearPending] returns at once when no transaction is pending: the
    client is unchanged, no miner and no watch is told. Otherwise the pool
    is cleared, the post-mine state is the pre-mine state again, every
    local miner is told of a state change, every accumulator is empty, and
    a watch receives entries only if it is bound to [PendingChangedFilter]. *)
Theorem clearPending_resets_pending (c : Client) :
  (pending (m_postMine c) = [] → clearPending c = c)
  ∧ (pending (m_postMine c) ≠ [] →
       m_postMine (clearPending c) = m_preMine c
       ∧ m_preMine (clearPending c) = m_preMine c
       ∧ m_tq (clearPending c) = tq_clear (m_tq c)
       ∧ m_localMiners (clearPending c) = noteStateChange <$> m_localMiners c
       ∧ (∀ k f, m_filters (clearPending c) !! k = Some f → changes f = [])
       ∧ ∀ key w, m_watches c !! key = Some w →
           ∃ w', m_watches (clearPending c) !! key = Some w'
             ∧ (id w ≠ PendingChangedFilter → w' = w)
             ∧ (id w = PendingChangedFilter → m_filters c !! id w = None →
                  w_changes w' = w_changes w ++ [mkLocalisedLogEntry SpecialLogEntry 0 0])).
Proof.
  unfold clearPending. split.
  - intros ->. done.
  - intros Hne. destruct (pending (m_postMine c)) as [|t ts] eqn:Hp; [done|].
    simpl. do 4 (split; [done|]). split.
    + intros k f. rewrite lookup_fmap.
      destruct (m_filters c !! k); simpl; [|done]. by intros [= <-].
    + intros key w Hw. rewrite lookup_fmap, Hw. simpl. eexists. split; [done|].
      split.
      * intros Hid. rewrite decide_False; [done|]. by rewrite elem_of_singleton.
      * intros Hid Hnone. rewrite decide_True by (by rewrite elem_of_singleton).
        by rewrite Hnone.
Qed.

End Facts.

(** *** miningHistory *)

Section HistoryFacts.
Context {MineInfo : Type} (combine : MineInfo → MineInfo → MineInfo).

Lemma combine_history_lookup (ret l : list MineInfo) (i : nat) :
  combine_history MineInfo combine ret l !! i
  = (λ r, match l !! i with Some x => combine r x | None => r end) <$> ret !! i.
Proof.
  revert l i. induction ret as [|r ret IH]; intros l i; [done|].
  destruct l as [|x l]; simpl.
  - by destruct ((r :: ret) !! i).
  - destruct i as [|i]; simpl; [done|]. apply IH.
Qed.

Lemma foldl_combine_history_lookup (others : list (list MineInfo)) : ∀ first i,
  foldl (combine_history MineInfo combine) first others !! i
  = (λ r, foldl combine r (omap (λ l : list MineInfo, l !! i) others)) <$> first !! i.
Proof.
  induction others as [|l others IH]; intros first i; simpl.
  - by destruct (first !! i).
  - rewrite IH, combine_history_lookup.
    destruct (first !! i) as [r|]; simpl; [|done]. by destruct (l !! i).
Qed.

(** X18. [miningHistory()] has as many samples as the history of the first
    local miner (none without miners): its sample [i] is the first miner's
    sample [i] combined, in order, with the sample [i] of every other miner
    whose history reaches that index; samples that the other miners have
    beyond the length of the first are dropped. *)
Theorem miningHistory_follows_first_miner (first : list MineInfo)
    (others : list (list MineInfo)) :
  miningHistory MineInfo combine [] = []
  ∧ length (miningHistory MineInfo combine (first :: others)) = length first
  ∧ ∀ i, miningHistory MineInfo combine (first :: others) !! i
         = (λ r, foldl combine r (omap (λ l : list MineInfo, l !! i) others))
             <$> first !! i.
Proof.
  split; [done|]. simpl.
  assert (∀ i, foldl (combine_history MineInfo combine) first others !! i
               = (λ r, foldl combine r (omap (λ l : list MineInfo, l !! i) others))
                   <$> first !! i) as Hlook
    by (intros i; apply foldl_combine_history_lookup).
  split; [|exact Hlook].
  destruct (Nat.lt_trichotomy
              (length (foldl (combine_history MineInfo combine) first others))
              (length first)) as [Hlt|[Heq|Hgt]]; [|done|].
  - exfalso. specialize (Hlook (length (foldl (combine_history MineInfo combine) first others))).
    rewrite (lookup_ge_None_2 (foldl _ _ _)) in Hlook by lia.
    destruct (lookup_lt_is_Some_2 first _ Hlt) as [x Hx]. by rewrite Hx in Hlook.
  - exfalso. specialize (Hlook (length first)).
    rewrite (lookup_ge_None_2 first) in Hlook by lia.
    destruct (lookup_lt_is_Some_2 _ _ Hgt) as [x Hx]. by rewrite Hx in Hlook.
Qed.

End HistoryFacts.

End ClientMoreFacts.

(** * The further properties at concrete inputs *)

Module MoreSample.
Import Version ClientModel GasPrice ClientMore Sample.

#[local] Existing Instance sample_constants.
#[local] Existing Instance mini_rlp.
#[local] Existing Instance sample_fs.
#[local] Existing Instance sample_chain.
#[local] Existing Instance sample_pool.
#[local] Existing Instance sample_state.
#[local] Existing Instance sample_filters.
#[local] Existing Instance sample_executive.

(** ** The gas pricer *)

Lemma update_extreme_octiles_witness :
  ∃ lo hi,
    [10; 10; 10; 10; 0; 0; 0; 0; 20] !! 0%nat = Some lo
    ∧ [10; 10; 10; 10; 0; 0; 0; 0; 20] !! 8%nat = Some hi
    ∧ ∀ t, t ∈ GasPriceFacts.sampled 1000 gas_chain (currentHash gas_chain) →
           lo ≤ GasPriceFacts.price_of t ≤ hi.
Proof.
  destruct (GasPriceFacts.update_extreme_octiles gas_chain fresh_pricer
              (mkBasicGasPricer [10; 10; 10; 10; 0; 0; 0; 0; 20] 3141592)
              [(10, 21000); (20, 21000)] 42000)
    as (lo & hi & Hlo & Hhi & _ & _ & Hall & _).
  - reflexivity.
  - vm_compute. reflexivity.
  - lia.
  - vm_compute. reflexivity.
  - exists lo, hi. split; [exact Hlo|]. split; [exact Hhi|exact Hall].
Defined.

Definition genesis_only : BlockChain :=
  {| sc_blocks := {[ 1 := genesis ]}; sc_head := 1 |}.

Lemma update_without_transactions_witness :
  update genesis_only fresh_pricer = Some fresh_pricer.
Proof.
  apply (GasPriceFacts.update_without_transactions genesis_only fresh_pricer).
  vm_compute. reflexivity.
Defined.

(** Eight blocks on the genesis, one transaction each, with the gas prices
    10, 20, ..., 80 and 21000 gas used by each. *)
Definition priced_block (i : Z) : Z * SampleBlock :=
  (10 + i,
   mkSampleBlock (mkBlockInfo (10 + i) (if i =? 1 then 1 else 9 + i) 3141592 500 i 0)
     [[byte_of (10 * i); byte_of i]] [paid [byte_of (10 * i); byte_of i]]).

Definition eight_prices : BlockChain :=
  {| sc_blocks := list_to_map ((1, genesis) :: (priced_block <$> [1; 2; 3; 4; 5; 6; 7; 8]));
     sc_head := 18 |}.

Lemma update_assigns_no_octile_to_light_prices_witness :
  update eight_prices fresh_pricer
  = Some (mkBasicGasPricer [10; 0; 0; 0; 0; 0; 0; 0; 80] 3141592).
Proof.
  destruct (GasPriceFacts.update_assigns_no_octile_to_light_prices eight_prices fresh_pricer
              [(10, 21000); (20, 21000); (30, 21000); (40, 21000);
               (50, 21000); (60, 21000); (70, 21000); (80, 21000)] 168000)
    as (lo & hi & Hlo & Hhi & Hup).
  - vm_compute. reflexivity.
  - lia.
  - repeat constructor; vm_compute; discriminate.
  - injection Hlo as <-. injection Hhi as <-. exact Hup.
Defined.

(** One transaction that used 2^29 gas. *)
Definition heavy_chain : BlockChain :=
  {| sc_blocks :=
       {[ 1 := genesis;
          5 := mkSampleBlock (mkBlockInfo 5 1 3141592 500 1 0) [T1]
                 [mkTransactionReceipt 536870912 []] ]};
     sc_head := 5 |}.

Lemma update_overruns_octiles_witness : update heavy_chain fresh_pricer = None.
Proof.
  apply (GasPriceFacts.update_overruns_octiles heavy_chain fresh_pricer
           10 536870912 536870912 []).
  - vm_compute. reflexivity.
  - lia.
  - vm_compute. discriminate.
Defined.

Lemma update_within_octiles_witness :
  ∃ gp', update gas_chain fresh_pricer = Some gp' ∧ length (m_octiles gp') = 9%nat.
Proof.
  apply (GasPriceFacts.update_within_octiles gas_chain fresh_pricer
           [(10, 21000); (20, 21000)] 42000).
  - vm_compute. reflexivity.
  - lia.
  - vm_compute. reflexivity.
  - repeat constructor; vm_compute; discriminate.
Defined.

(** ** Start-up *)

Lemma check_after_setOk_is_Trust_witness :
  m_action (VersionChecker_new (setOk (VersionChecker_new old_database "") old_database) "")
  = Trust.
Proof.
  apply (StartupFacts.check_after_setOk_is_Trust old_database "").
  - vm_compute. repeat split; reflexivity.
  - apply is_Some_alt. vm_compute. exact I.
Defined.

(** ** hashrate *)

Lemma hashrate_of_slow_miners_is_zero_witness :
  hashrate (sample_client [] ∅ (state_at 2 ∅) [miner 0 500 1000; miner 1 999 1000] ∅ ∅ 0)
  = Some 0.
Proof.
  apply ClientMoreFacts.hashrate_of_slow_miners_is_zero.
  repeat constructor; simpl; lia.
Defined.

(** ** Filters and watches *)

Definition entry_30 : LocalisedLogEntry :=
  mkLocalisedLogEntry (mkLogEntry 30 [] []) 2 (hash_of T3).


Definition watch_5 : ClientWatch := mkClientWatch 77 [] time_point_max.



(** [T3] waits in the pool, filter 77 is empty, watch 5 is bound to it. *)
Definition watched_client : Client :=
  sample_client [] {[ hash_of T3 := T3 ]} (state_at 2 ∅) [] {[ 77 := filter_77 ]}
    {[ 5 := watch_5 ]} 0.

Lemma watched_client_drained :
  ∀ k f, m_filters watched_client !! k = Some f → changes f = [].
Proof.
  intros k f Hk. unfold watched_client, sample_client in Hk. simpl in Hk.
  apply lookup_singleton_Some in Hk as [_ <-]. reflexivity.
Defined.

Lemma doWork_leaves_filters_drained_witness :
  ∃ c' rep, doWork clock_125 watched_client = Some (c', rep)
    ∧ ∀ k f, m_filters c' !! k = Some f → changes f = [].
Proof.
  assert (is_Some (doWork clock_125 watched_client)) as [[c' rep] Hrun]
    by (apply is_Some_alt; vm_compute; exact I).
  exists c', rep. split; [exact Hrun|].
  exact (ClientMoreFacts.doWork_leaves_filters_drained _ _ _ _ Hrun).
Defined.

Lemma doWork_pending_changed_set_witness :
  ∃ out, doWork_pending pending_client ∅ false = Some out
    ∧ 77 ∈ out.1.2 ∧ PendingChangedFilter ∈ out.1.2 ∧ out.2 = true.
Proof.
  destruct (ClientMoreFacts.doWork_pending_changed_set pending_client ∅ false)
    as (out & Hrun & Hset & Hflag).
  - apply Nat.leb_le. reflexivity.
  - exists out. split; [exact Hrun|]. split; [|split].
    + apply Hset. right. right. exists filter_77.
      split; [reflexivity|]. split; [reflexivity|].
      exists (sample_apply T3). split; [|discriminate].
      apply list_elem_of_In. vm_compute. left. reflexivity.
    + apply Hset. right. left. split; [|reflexivity].
      intros Hnil. apply (f_equal length) in Hnil. vm_compute in Hnil. discriminate.
    + rewrite Hflag. reflexivity.
Defined.

Lemma doWork_hands_accumulated_entries_to_watches_witness :
  ∃ c' rep c4 r4,
    doWork clock_125 watched_client = Some (c', rep)
    ∧ ClientMoreFacts.doWork_collect watched_client = Some (c4, wr_changeds rep, r4)
    ∧ ∀ key w w' f4,
        m_watches watched_client !! key = Some w →
        m_watches c' !! key = Some w' →
        m_filters c4 !! id w = Some f4 →
        id w' = id w ∧ lastPoll w' = lastPoll w
        ∧ w_changes w' = w_changes w ++ changes f4.
Proof.
  assert (is_Some (doWork clock_125 watched_client)) as [[c' rep] Hrun]
    by (apply is_Some_alt; vm_compute; exact I).
  destruct (ClientMoreFacts.doWork_hands_accumulated_entries_to_watches _ _ _ _ Hrun
              watched_client_drained) as (c4 & r4 & Hcollect & Hwatch).
  exists c', rep, c4, r4. split; [exact Hrun|]. split; [exact Hcollect|exact Hwatch].
Defined.

Lemma doWork_fresh_blocks_note_chain_changed_witness :
  ∃ c' rep, doWork clock_125 reorg_client = Some (c', rep)
    ∧ ChainChangedFilter ∈ wr_changeds rep.
Proof.
  assert (is_Some (doWork clock_125 reorg_client)) as [[c' rep] Hrun]
    by (apply is_Some_alt; vm_compute; exact I).
  exists c', rep. split; [exact Hrun|].
  apply (ClientMoreFacts.doWork_fresh_blocks_note_chain_changed _ _ _ _ Hrun).
  vm_compute. discriminate.
Defined.

Lemma doWork_notes_new_blocks_to_host_witness :
  ∃ c' rep h', doWork clock_125 reorg_client = Some (c', rep)
    ∧ m_host c' = Some h'
    ∧ host_newBlocks h' = (if decide (wr_changeds rep ≠ ∅) then true else false).
Proof.
  assert (is_Some (doWork clock_125 reorg_client)) as [[c' rep] Hrun]
    by (apply is_Some_alt; vm_compute; exact I).
  destruct (ClientMoreFacts.doWork_notes_new_blocks_to_host _ _ _ _ Hrun) as [_ Hhost].
  destruct (Hhost (mkEthereumHost false false) eq_refl) as (h' & Hh' & Hflag).
  exists c', rep, h'. split; [exact Hrun|]. split; [exact Hh'|exact Hflag].
Defined.

(** The whole pass on [watched_client]: watch 5 receives the log of [T3]. *)
(** ** Completed miners *)

(** Two local miners, both with a completed block. *)
Definition mined (i : Z) (block : list Byte.byte) : LocalMiner :=
  mkLocalMiner i (mkMineProgress 10000 2) true block false.

Definition two_mined : Client :=
  sample_client [] ∅ (state_at 2 ∅) [mined 0 [byte_of 1]; mined 1 [byte_of 2]] ∅ ∅ 0.

(** The block of miner 0 is imported; miner 1 is told before its turn. *)
Lemma doWork_miners_tells_every_miner_witness :
  doWork_miners two_mined
  = maintainMiner false [] (maintainMiner true [byte_of 1] (two_mined, ∅))
  ∧ m_localMiners (doWork_miners two_mined).1
    = [noteStateChange (mined 0 [byte_of 1]); noteStateChange (mined 1 [byte_of 2])].
Proof.
  destruct (ClientMoreFacts.doWork_miners_tells_every_miner two_mined)
    as (_ & Htold & Hfirst).
  split.
  - apply (Hfirst [] (mined 0 [byte_of 1]) [mined 1 [byte_of 2]]);
      [reflexivity|constructor|reflexivity].
  - apply Htold. reflexivity.
Defined.

Example watched_client_receives_T3 :
  (default [] (w_changes <$>
     (m_watches <$> (fst <$> doWork clock_125 watched_client)) ≫= (.!! 5)))
  = [entry_30].
Proof. vm_compute. reflexivity. Qed.

End MoreSample.
